(** * jedi.inference.arguments: call-argument unpacking, argument clinic
      matching, call-site back-tracing and forced iteration.

    A shallow embedding of [src/jedi/inference/arguments.py].  Python
    generators are modelled by what a consumer that runs them to the end
    observes: the values yielded, in order, and the exception (if any) that
    ends the iteration.  The collaborators the module only calls (the
    inference engine, the lazy values, the name resolution, the analysis
    collector) are an interface record, [Engine]; every theorem quantifies
    over all engines.  A call of a collaborator is taken to return, and to
    return the same for the same arguments; a value set is the list of its
    members in the order in which iterating over it gives them. *)

From Stdlib Require Import String Ascii.
From stdpp Require Import base option list gmap strings.

Set Warnings "-register-all".

Local Open Scope string_scope.
Local Open Scope list_scope.
Local Open Scope nat_scope.

(** ** Exceptions, results and generators *)

(** The Python exceptions the module can raise or let through. *)
Inductive exn : Type :=
| AttributeError
| IndexError
| AssertionError
| RuntimeError         (* a StopIteration leaving a generator body (PEP 479) *)
| NotImplementedError
| ParamIssue
| KeyError.

Global Instance exn_eq_dec : EqDecision exn.
Proof. solve_decision. Defined.

Inductive result (A : Type) : Type :=
| Ok (a : A)
| Raise (e : exn).
Arguments Ok {A} a.
Arguments Raise {A} e.

Global Instance result_ret : MRet result := fun A a => Ok a.
Global Instance result_bind : MBind result := fun A B f r =>
  match r with
  | Ok a => f a
  | Raise e => Raise e
  end.

(** A generator run to exhaustion: what it yielded, and how it stopped
    ([None]: normally; [Some e]: exception [e] left the generator). *)
Record Gen (A : Type) : Type := mkGen {
  yields : list A;
  raised : option exn
}.
Arguments mkGen {A} yields raised.
Arguments yields {A} g.
Arguments raised {A} g.

Definition gen_return {A} : Gen A := mkGen [] None.
Definition gen_raise {A} (e : exn) : Gen A := mkGen [] (Some e).
Definition gen_yield {A} (x : A) (rest : Gen A) : Gen A :=
  mkGen (x :: yields rest) (raised rest).

(** [list(gen)] / [tuple(gen)]: the yielded values, or the exception. *)
Definition list_of_gen {A} (g : Gen A) : result (list A) :=
  match raised g with
  | None => Ok (yields g)
  | Some e => Raise e
  end.

(** ** Regular expressions, as Python's backtracking [re.match] runs them *)

Module Re.

(** The fragment of [re] syntax the clinic pattern uses.  Repetition is
    only ever applied to a single character class. *)
Inductive regex : Type :=
| Eps                               (* the empty alternative *)
| Cls (p : ascii -> bool)           (* one character of a class *)
| Seq (r1 r2 : regex)
| Alt (r1 r2 : regex)                (* r1|r2, r1 tried first *)
| Opt (r : regex)                    (* r?  greedy *)
| Star (p : ascii -> bool)           (* p*  greedy *)
| Group (n : nat) (r : regex).       (* capturing group number n *)

Definition Chr (c : ascii) : regex := Cls (Ascii.eqb c).
Definition Plus (p : ascii -> bool) : regex := Seq (Cls p) (Star p).

Definition captures : Type := nat -> option string.
Definition no_captures : captures := fun _ => None.
Definition capture (n : nat) (v : string) (c : captures) : captures :=
  fun m => if Nat.eqb m n then Some v else c m.

(** The text between position [s] and the later position [s']. *)
Definition consumed (s s' : string) : string :=
  substring 0 (String.length s - String.length s') s.

Section Run.
Context {R : Type}.

Fixpoint star (p : ascii -> bool) (s : string)
    (k : string -> option R) : option R :=
  match s with
  | String c s' =>
      if p c then
        match star p s' k with
        | Some x => Some x
        | None => k s
        end
      else k s
  | EmptyString => k s
  end.

(** Continuation-passing backtracking: [k] is the rest of the pattern;
    the first alternative whose continuation succeeds wins. *)
Fixpoint run (r : regex) (s : string) (c : captures)
    (k : string -> captures -> option R) : option R :=
  match r with
  | Eps => k s c
  | Cls p =>
      match s with
      | String a s' => if p a then k s' c else None
      | EmptyString => None
      end
  | Seq r1 r2 => run r1 s c (fun s1 c1 => run r2 s1 c1 k)
  | Alt r1 r2 =>
      match run r1 s c k with
      | Some x => Some x
      | None => run r2 s c k
      end
  | Opt r1 =>
      match run r1 s c k with
      | Some x => Some x
      | None => k s c
      end
  | Star p => star p s (fun s' => k s' c)
  | Group n r1 => run r1 s c (fun s' c' => k s' (capture n (consumed s s') c'))
  end.
End Run.

(** The least number of characters a match of [r] takes. *)
Fixpoint min_length (r : regex) : nat :=
  match r with
  | Eps | Opt _ | Star _ => 0
  | Cls _ => 1
  | Seq r1 r2 => min_length r1 + min_length r2
  | Alt r1 r2 => min_length r1 `min` min_length r2
  | Group _ r1 => min_length r1
  end.

(** A match object: the text after the match and the groups. *)
Record match_object : Type := mkMatch {
  whole : string;          (* group(0) *)
  rest : string;           (* string[len(group(0)):] *)
  group : captures
}.

(** [re.match(r, s)]: anchored at the start of [s]. *)
Definition re_match (r : regex) (s : string) : option match_object :=
  run r s no_captures (fun s' c => Some (mkMatch (consumed s s') s' c)).

End Re.

(** ** Argument clinic notation *)

(** [\w] on the ASCII range: letters, digits and the underscore.  Clinic
    strings are ASCII literals of the code base. *)
Definition is_word (c : ascii) : bool :=
  let n := nat_of_ascii c in
  ((48 <=? n) && (n <=? 57)) || ((65 <=? n) && (n <=? 90))
  || ((97 <=? n) && (n <=? 122)) || (n =? 95).

Definition is_char (c : ascii) : ascii -> bool := Ascii.eqb c.

(** The pattern of [_parse_argument_clinic]:
    [(?:(?:(\[),? ?|, ?|)(\**\w+)|, ?/)\]*] *)
Definition clinic_re : Re.regex :=
  Re.Seq
    (Re.Alt
       (Re.Seq
          (Re.Alt
             (Re.Seq (Re.Group 1 (Re.Chr "["))
                     (Re.Seq (Re.Opt (Re.Chr ",")) (Re.Opt (Re.Chr " "))))
             (Re.Alt (Re.Seq (Re.Chr ",") (Re.Opt (Re.Chr " ")))
                     Re.Eps))
          (Re.Group 2 (Re.Seq (Re.Star (is_char "*")) (Re.Plus is_word))))
       (Re.Seq (Re.Chr ",") (Re.Seq (Re.Opt (Re.Chr " ")) (Re.Chr "/"))))
    (Re.Star (is_char "]")).

(** [(name, optional, allow_kwargs, stars)] *)
Record ArgumentClinicParam : Type := mkParam {
  p_name : string;
  p_optional : bool;
  p_allow_kwargs : bool;
  p_stars : nat
}.

(** [word.count('*')] *)
Fixpoint count_char (c : ascii) (s : string) : nat :=
  match s with
  | EmptyString => 0
  | String a s' => (if Ascii.eqb a c then 1 else 0) + count_char c s'
  end.

(** [word[n:]] *)
Fixpoint string_drop (n : nat) (s : string) : string :=
  match n, s with
  | 0, _ => s
  | S n', String _ s' => string_drop n' s'
  | S _, EmptyString => EmptyString
  end.

(** Truth value of [match.group(n)]: [None] and the empty string are
    false. *)
Definition str_truthy (g : option string) : bool :=
  match g with
  | Some (String _ _) => true
  | _ => false
  end.

(** The [while string:] loop of [_parse_argument_clinic], with its two
    local flags as arguments.  Every iteration removes a non-empty match
    from [string] (lemma [parse_loop_fuel]), so [String.length string + 1]
    rounds always suffice; [None] means the rounds ran out. *)
Fixpoint parse_loop (fuel : nat) (allow_kwargs optional : bool)
    (string : string) : option (Gen ArgumentClinicParam) :=
  match fuel with
  | 0 => None
  | S fuel' =>
      match string with
      | EmptyString => Some gen_return
      | _ =>
          match Re.re_match clinic_re string with
          | None => Some (gen_raise AttributeError)   (* match.group on None *)
          | Some m =>
              let string := Re.rest m in
              if negb (str_truthy (Re.group m 2)) then   (* a slash *)
                parse_loop fuel' true optional string
              else
                let optional := optional || str_truthy (Re.group m 1) in
                let word := default EmptyString (Re.group m 2) in
                let stars := count_char "*" word in
                let word := string_drop stars word in
                gen_yield (mkParam word optional allow_kwargs stars)
                  <$> parse_loop fuel' (allow_kwargs || negb (Nat.eqb stars 0))
                        optional string
          end
      end
  end.

Definition _parse_argument_clinic (string : string)
    : option (Gen ArgumentClinicParam) :=
  parse_loop (S (String.length string)) false false string.

(** ** Syntax trees (parso) *)

(** A parso node: a leaf carries its source text in [value], an inner node
    its [children].  Both carry a [type] tag. *)
Inductive Node : Type :=
| Leaf (type : string) (value : string)
| BaseNode (type : string) (children : list Node).

Definition node_type (n : Node) : string :=
  match n with
  | Leaf t _ => t
  | BaseNode t _ => t
  end.

(** [n.children]; a leaf has no such attribute. *)
Definition node_children (n : Node) : result (list Node) :=
  match n with
  | Leaf _ _ => Raise AttributeError
  | BaseNode _ cs => Ok cs
  end.

(** [n.value]; an inner node has no such attribute. *)
Definition node_value (n : Node) : result string :=
  match n with
  | Leaf _ v => Ok v
  | BaseNode _ _ => Raise AttributeError
  end.

(** [l[i]] *)
Definition index {A} (l : list A) (i : nat) : result A :=
  match l !! i with
  | Some x => Ok x
  | None => Raise IndexError
  end.

(** [n == s] for a string [s]: parso's operator and keyword leaves compare
    by their text, every other node compares by identity, so it never
    equals a string. *)
Definition node_eq_str (n : Node) (s : string) : bool :=
  match n with
  | Leaf t v => (String.eqb t "operator" || String.eqb t "keyword") && String.eqb v s
  | BaseNode _ _ => false
  end.

(** [n in ('*', '**')] *)
Definition is_star_token (n : Node) : bool :=
  node_eq_str n "*" || node_eq_str n "**".

(** [isinstance(n, tree.Name)] *)
Definition is_Name (n : Node) : bool :=
  match n with
  | Leaf t _ => String.eqb t "name"
  | BaseNode _ _ => false
  end.

(** ** Values, lazy values and the inference collaborator *)

Definition Context : Type := nat.

(** Values are the engine's, referred to by a handle, except for the two
    kinds this module constructs itself. *)
Inductive Value : Type :=
| InferredValue (handle : nat)
| FakeSequence (array_type : string) (lazy_values : list LazyValue)
| GeneratorComprehension (defining_context : Context)
    (sync_comp_for_node entry_node : Node)
with LazyValue : Type :=
| LazyKnownValue (v : Value)
| LazyKnownValues (vs : list Value)
| LazyTreeValue (context : Context) (node : Node)
| MergedLazyValues (lazy_values : list LazyValue).

(** A value set, in the order in which iterating over it gives its
    members. *)
Definition ValueSet : Type := list Value.
Definition NO_VALUES : ValueSet := [].

(** An entry of an unpacked argument stream: [(key, lazy_value)], with
    [None] as key of an unnamed entry. *)
Definition Entry : Type := option string * LazyValue.

(** Identity of an [Arguments] object. *)
Definition ArgId : Type := nat.

(** What a name resolves to ([goto]) and the parameter behind it. *)
Inductive Param : Type :=
| DynamicExecutedParams
| ExecutedParam (var_args : option ArgId).

Inductive Name : Type :=
| ParamName (param : Param)
| OtherName.

(** The collaborators of this module, as far as it calls them. *)
Record Engine : Type := mkEngine {
  infer_node : Context -> Node -> ValueSet;        (* context.infer_node(n) *)
  infer : LazyValue -> ValueSet;                    (* lazy_value.infer() *)
  py__getattribute__ : Value -> string -> ValueSet;
  py__iter__ : Value -> option (list LazyValue);    (* None: no such attribute *)
  is_CompiledInstance : Value -> bool;
  string_name : Value -> string;                    (* v.name.string_name *)
  is_Sequence : Value -> bool;                      (* iterable.Sequence *)
  array_type : Value -> string;
  exact_key_items : Value -> list (string * LazyValue);
  get_merged_lazy_value : list LazyValue -> LazyValue;
  goto : Context -> Node -> list Name               (* TreeNameDefinition(c, n).goto() *)
}.

(** The callee definition handed to [unpack]; only [funcdef.name.value] is
    read. *)
Record Funcdef : Type := mkFuncdef { funcdef_name : string }.

(** One call of [analysis.add(context, error_name, node, message=m)]; the
    message is kept as its format string and the two formatted values. *)
Record Issue : Type := mkIssue {
  issue_context : Context;
  error_name : string;
  issue_node : Node;
  message : string * string * Value
}.

(** ** Forced iteration *)

(** The events of a run of [try_iter_content]: a call of [typ.py__iter__]'s
    result [f()] at a recursion depth. *)
Record IterEvent : Type := mkIter { iter_depth : nat; iter_value : Value }.

(** A [for] loop whose body returns the events of one round, or runs out of
    fuel. *)
Fixpoint for_each {A B} (l : list A) (body : A -> option (list B))
    : option (list B) :=
  match l with
  | [] => Some []
  | x :: l' =>
      match body x with
      | None => None
      | Some evs => (evs ++.) <$> for_each l' body
      end
  end.

(** [try_iter_content(types, depth)].  [fuel] bounds the nesting of calls;
    [None] is a run that needed more. *)
Fixpoint try_iter_content (fuel : nat) (E : Engine) (types : ValueSet)
    (depth : nat) : option (list IterEvent) :=
  match fuel with
  | 0 => None
  | S fuel' =>
      if 10 <? depth then Some []
      else
        for_each types (fun typ =>
          match py__iter__ E typ with
          | None => Some []                       (* except AttributeError: pass *)
          | Some lazy_values =>
              (mkIter depth typ ::.) <$>
              for_each lazy_values (fun lazy_value =>
                try_iter_content fuel' E (infer E lazy_value) (depth + 1))
          end)
  end.

(** ** Splitting an argument list *)

(** The loop of [unpack_arglist] over [arglist.children]. *)
Fixpoint unpack_children (children : list Node) : Gen (nat * Node) :=
  match children with
  | [] => gen_return
  | child :: rest =>
      if node_eq_str child "," then unpack_children rest
      else if is_star_token child then
        match node_value child, rest with
        | Raise e, _ => gen_raise e
        | Ok v, [] => gen_raise RuntimeError        (* next(iterator) *)
        | Ok v, el :: rest' =>
            gen_yield (String.length v, el) (unpack_children rest')
        end
      else
        let starred :=
          if String.eqb (node_type child) "argument" then
            cs ← node_children child; c0 ← index cs 0; Ok (is_star_token c0, cs)
          else Ok (false, []) in
        match starred with
        | Raise e => gen_raise e
        | Ok (true, cs) =>
            if length cs =? 2 then
              match (c0 ← index cs 0; v ← node_value c0; c1 ← index cs 1; Ok (v, c1)) with
              | Ok (v, c1) => gen_yield (String.length v, c1) (unpack_children rest)
              | Raise e => gen_raise e
              end
            else gen_raise AssertionError
        | Ok (false, _) => gen_yield (0, child) (unpack_children rest)
        end
  end.

(** [unpack_arglist(arglist)] *)
Definition unpack_arglist (arglist : option Node) : Gen (nat * Node) :=
  match arglist with
  | None => gen_return
  | Some arglist =>
      let t := node_type arglist in
      let listlike :=
        if String.eqb t "arglist" || String.eqb t "testlist" then Ok true
        else if String.eqb t "argument" then
          cs ← node_children arglist; c0 ← index cs 0; Ok (is_star_token c0)
        else Ok false in
      match listlike with
      | Raise e => gen_raise e
      | Ok false => gen_yield (0, arglist) gen_return
      | Ok true =>
          match node_children arglist with
          | Ok cs => unpack_children cs
          | Raise e => gen_raise e
          end
      end
  end.

(** ** The Arguments variants *)

Record TreeArguments : Type := mkTreeArguments {
  context : Context;
  argument_node : option Node;
  trailer : option Node          (* can be None, e.g. in a class definition *)
}.

(** An [Arguments] object.  A wrapper's [_wrapped_arguments] is set once,
    at construction, from an object that exists already; it is kept by
    value. *)
Inductive Arguments : Type :=
| OfTree (self : TreeArguments)
| ValuesArguments (values_list : list ValueSet)
| AnonymousArguments
| TreeArgumentsWrapper (wrapped_arguments : Arguments).

(** The attributes [context], [argument_node] and [trailer]: instance
    attributes of a [TreeArguments], class attributes (all [None]) of the
    other [AbstractArguments], forwarding properties of a wrapper. *)
Fixpoint arguments_context (a : Arguments) : option Context :=
  match a with
  | OfTree self => Some (context self)
  | TreeArgumentsWrapper w => arguments_context w
  | _ => None
  end.

Fixpoint arguments_argument_node (a : Arguments) : option Node :=
  match a with
  | OfTree self => argument_node self
  | TreeArgumentsWrapper w => arguments_argument_node w
  | _ => None
  end.

Fixpoint arguments_trailer (a : Arguments) : option Node :=
  match a with
  | OfTree self => trailer self
  | TreeArgumentsWrapper w => arguments_trailer w
  | _ => None
  end.

(** ** Unpacking a call-site argument list *)

(** [itertools.zip_longest] over the iterators, with the default fill value
    [None]: row [i] holds element [i] of every iterator, as long as one of
    them has one. *)
Definition zip_longest {A} (iterators : list (list A)) : list (list (option A)) :=
  let longest := foldr Nat.max 0 (length <$> iterators) in
  (fun i => (fun it => it !! i) <$> iterators) <$> seq 0 longest.

(** [[v for v in values if v is not None]] *)
Definition not_None {A} (values : list (option A)) : list A := omap id values.

Definition star_issue (ctx : Context) (f : Funcdef) (array : Value)
    (input_node : Node) : Issue :=
  mkIssue ctx "type-error-star" input_node
    ("TypeError: %s() argument after * must be a sequence, not %s",
     funcdef_name f, array).

Definition star_star_issue (ctx : Context) (f : Funcdef) (array : Value)
    (input_node : Node) : Issue :=
  mkIssue ctx "type-error-star-star" input_node
    ("TypeError: %s argument after ** must be a mapping, not %s",
     funcdef_name f, array).

(** [_iterate_star_args(context, array, input_node, funcdef)]: the lazy
    values it yields and the issues it adds. *)
Definition _iterate_star_args (E : Engine) (ctx : Context) (array : Value)
    (input_node : Node) (funcdef : option Funcdef)
    : list LazyValue * list Issue :=
  let added :=
    match py__getattribute__ E array "__iter__" with
    | [] =>
        match funcdef with
        | Some f => [star_issue ctx f array input_node]
        | None => []
        end
    | _ :: _ => []
    end in
  match py__iter__ E array with
  | None => ([], added)                       (* except AttributeError: pass *)
  | Some lazy_values => (lazy_values, added)
  end.

(** [_star_star_dict(context, array, input_node, funcdef)]: the items of
    the returned mapping and the issues added. *)
Definition _star_star_dict (E : Engine) (ctx : Context) (array : Value)
    (input_node : Node) (funcdef : option Funcdef)
    : list (string * LazyValue) * list Issue :=
  if is_CompiledInstance E array && String.eqb (string_name E array) "dict" then
    ([], [])
  else if is_Sequence E array && String.eqb (array_type E array) "dict" then
    (exact_key_items E array, [])
  else
    ([], match funcdef with
         | Some f => [star_star_issue ctx f array input_node]
         | None => []
         end).

(** The local state of a running [unpack]: what it has yielded, the
    buffered [named_args], and the issues it has added. *)
Record UnpackState : Type := mkState {
  yielded : list Entry;
  named_args : list Entry;
  reported : list Issue
}.

Definition do_yield (es : list Entry) (st : UnpackState) : UnpackState :=
  mkState (yielded st ++ es) (named_args st) (reported st).
Definition do_buffer (e : Entry) (st : UnpackState) : UnpackState :=
  mkState (yielded st) (named_args st ++ [e]) (reported st).
Definition do_report (added : list Issue) (st : UnpackState) : UnpackState :=
  mkState (yielded st) (named_args st) (reported st ++ added).

(** [iterable.GeneratorComprehension(inference_state, defining_context,
    sync_comp_for_node, entry_node)].  The class lives in
    [jedi.inference.value.iterable], outside this module; its constructor
    ([_BaseComprehension.__init__]) starts with
    [assert sync_comp_for_node.type == 'sync_comp_for'] and then stores
    its arguments. *)
Definition new_GeneratorComprehension (defining_context : Context)
    (sync_comp_for_node entry_node : Node) : result Value :=
  if String.eqb (node_type sync_comp_for_node) "sync_comp_for" then
    Ok (GeneratorComprehension defining_context sync_comp_for_node entry_node)
  else Raise AssertionError.

(** One round of the [for star_count, el in unpack_arglist(...)] loop of
    [TreeArguments.unpack]. *)
Definition unpack_body (E : Engine) (ctx : Context) (funcdef : option Funcdef)
    (st : UnpackState) (star_count : nat) (el : Node) : result UnpackState :=
  if star_count =? 1 then
    let arrays := infer_node E ctx el in
    let iterators := (fun a => _iterate_star_args E ctx a el funcdef) <$> arrays in
    let rows := zip_longest (fst <$> iterators) in
    Ok (do_yield
          ((fun values => (None, get_merged_lazy_value E (not_None values))) <$> rows)
          (do_report (concat (snd <$> iterators)) st))
  else if star_count =? 2 then
    let arrays := infer_node E ctx el in
    Ok (foldl (fun st dct =>
                 let '(items, added) := _star_star_dict E ctx dct el funcdef in
                 do_yield ((fun '(key, values) => (Some key, values)) <$> items)
                   (do_report added st))
              st arrays)
  else if String.eqb (node_type el) "argument" then
    c ← node_children el;
    if length c =? 3 then                      (* keyword argument *)
      c0 ← index c 0; name ← node_value c0; c2 ← index c 2;
      Ok (do_buffer (Some name, LazyTreeValue ctx c2) st)
    else                                       (* generator comprehension *)
      sync_comp_for ← index c 1;
      sync_comp_for ←
        (if String.eqb (node_type sync_comp_for) "comp_for" then
           cs ← node_children sync_comp_for; index cs 1
         else Ok sync_comp_for);
      entry_node ← index c 0;
      comp ← new_GeneratorComprehension ctx sync_comp_for entry_node;
      Ok (do_yield [(None, LazyKnownValue comp)] st)
  else
    Ok (do_yield [(None, LazyTreeValue ctx el)] st).

Fixpoint unpack_loop (E : Engine) (ctx : Context) (funcdef : option Funcdef)
    (items : list (nat * Node)) (st : UnpackState) : UnpackState * option exn :=
  match items with
  | [] => (st, None)
  | (star_count, el) :: items' =>
      match unpack_body E ctx funcdef st star_count el with
      | Ok st' => unpack_loop E ctx funcdef items' st'
      | Raise e => (st, Some e)
      end
  end.

(** A finished [unpack]: the entries it yielded (and how it ended), and the
    issues it handed to the analysis collector, in order. *)
Record Unpacked : Type := mkUnpacked {
  stream : Gen Entry;
  issues : list Issue
}.

(** [TreeArguments.unpack(self, funcdef)] *)
Definition unpack (E : Engine) (self : TreeArguments)
    (funcdef : option Funcdef) : Unpacked :=
  let items := unpack_arglist (argument_node self) in
  let '(st, e) :=
    unpack_loop E (context self) funcdef (yields items) (mkState [] [] []) in
  match e, raised items with
  | Some e, _ | None, Some e => mkUnpacked (mkGen (yielded st) (Some e)) (reported st)
  | None, None => mkUnpacked (mkGen (yielded st ++ named_args st) None) (reported st)
  end.

(** The call [arguments.unpack(funcdef)] itself, before anything is taken
    from its result.  [unpack] of [TreeArguments] and of [ValuesArguments]
    is a generator function: the call returns a generator and runs nothing
    of the body.  [unpack] of the two other variants is a plain function
    whose body is [raise NotImplementedError]: the call raises. *)
Definition call_unpack (E : Engine) (a : Arguments)
    (funcdef : option Funcdef) : result Unpacked :=
  match a with
  | OfTree self => Ok (unpack E self funcdef)
  | ValuesArguments values_list =>
      Ok (mkUnpacked
            (mkGen ((fun values => (None, LazyKnownValues values)) <$> values_list) None) [])
  | AnonymousArguments | TreeArgumentsWrapper _ => Raise NotImplementedError
  end.

(** [arguments.unpack(funcdef)] on any variant, as a [for] loop over the
    call sees it: [ValuesArguments] yields its value sets, the two
    variants without an [unpack] of their own raise. *)
Definition arguments_unpack (E : Engine) (a : Arguments)
    (funcdef : option Funcdef) : Unpacked :=
  match a with
  | OfTree self => unpack E self funcdef
  | ValuesArguments values_list =>
      mkUnpacked (mkGen ((fun values => (None, LazyKnownValues values)) <$> values_list) None) []
  | AnonymousArguments | TreeArgumentsWrapper _ =>
      mkUnpacked (gen_raise NotImplementedError) []
  end.

(** ** Matching an unpacked stream against a clinic parameter list *)

(** Modelled from the spec: [PushBackIterator] of [jedi.inference.utils]
    (not part of this module), an iterator that can be handed an entry
    back; the entry pushed back is the next one it returns.  Its state is
    what it has still to give. *)
Definition PushBackIterator : Type := Gen Entry.

Definition push_back (x : Entry) (it : PushBackIterator) : PushBackIterator :=
  gen_yield x it.

(** [next(iterator)]: [Ok None] stands for [StopIteration]. *)
Definition pb_next (it : PushBackIterator)
    : result (option (Entry * PushBackIterator)) :=
  match yields it, raised it with
  | x :: l, r => Ok (Some (x, mkGen l r))
  | [], Some e => Raise e
  | [], None => Ok None
  end.

(** The inner loop of a [*] parameter: take unnamed entries until a keyed
    one shows up, which is pushed back. *)
Fixpoint collect_unnamed (l : list Entry) (r : option exn)
    (lazy_values : list LazyValue) : result (list LazyValue * PushBackIterator) :=
  match l with
  | [] =>
      match r with
      | Some e => Raise e
      | None => Ok (lazy_values, mkGen [] None)
      end
  | (key, argument) :: l' =>
      match key with
      | Some _ => Ok (lazy_values, push_back (key, argument) (mkGen l' r))
      | None => collect_unnamed l' r (lazy_values ++ [argument])
      end
  end.

(** The [for i, (name, optional, allow_kwargs, stars) in
    enumerate(parameters)] loop of [_iterate_argument_clinic]. *)
Fixpoint clinic_loop (E : Engine) (parameters : list ArgumentClinicParam)
    (iterator : PushBackIterator) : Gen ValueSet :=
  match parameters with
  | [] => gen_return
  | p :: parameters' =>
      if p_stars p =? 1 then
        match collect_unnamed (yields iterator) (raised iterator) [] with
        | Raise e => gen_raise e
        | Ok (lazy_values, iterator) =>
            gen_yield [FakeSequence "tuple" lazy_values]
              (clinic_loop E parameters' iterator)
        end
      else if p_stars p =? 2 then gen_raise NotImplementedError
      else
        match pb_next iterator with
        | Raise e => gen_raise e
        | Ok nxt =>
            (* key, argument = next(iterator, (None, None)) *)
            let '(key, argument, iterator) :=
              match nxt with
              | Some ((key, argument), it) => (key, Some argument, it)
              | None => (None, None, iterator)
              end in
            if bool_decide (is_Some key) then gen_raise ParamIssue
            else if bool_decide (argument = None) && negb (p_optional p) then
              gen_raise ParamIssue
            else
              let value_set :=
                match argument with
                | None => NO_VALUES
                | Some argument => infer E argument
                end in
              if bool_decide (value_set = []) && negb (p_optional p) then
                gen_raise ParamIssue
              else gen_yield value_set (clinic_loop E parameters' iterator)
        end
  end.

(** [_iterate_argument_clinic(inference_state, arguments, parameters)].
    Its first statement, [iterator = PushBackIterator(arguments.unpack())],
    calls [unpack] before the loop over the parameters starts: when that
    call raises, nothing is yielded, whatever the parameters.
    [arguments.unpack()] is called without a [funcdef]; it then adds no
    issue (lemma [unpack_no_funcdef_silent]). *)
Definition _iterate_argument_clinic (E : Engine) (arguments : Arguments)
    (parameters : list ArgumentClinicParam) : Gen ValueSet :=
  match call_unpack E arguments None with
  | Raise e => gen_raise e
  | Ok unpacked => clinic_loop E parameters (stream unpacked)
  end.

(** ** The clinic decorator *)

(** A Python object passed to the decorated function. *)
Inductive PyObj : Type :=
| ObjArguments (a : Arguments)
| ObjValueSet (vs : ValueSet)
| ObjOther (tag : nat).

(** How a call of the [wrapper] ends: it returns a value set of its own,
    or it returns [func(context, *args, **kwargs)]. *)
Inductive WrapperOutcome : Type :=
| Return (v : ValueSet)
| CallFunc (args : list PyObj) (kwargs : gmap string PyObj).

(** [wrapper(context, *args, **kwargs)] of [repack_with_argument_clinic],
    for the parsed [clinic_args] of the enclosing call. *)
Definition wrapper (E : Engine) (clinic_args : list ArgumentClinicParam)
    (keep_arguments_param : bool)
    (args : list PyObj) (kwargs : gmap string PyObj) : result WrapperOutcome :=
  '(arguments, kwargs) ←
    (match kwargs !! "arguments" with
     | None => Raise KeyError
     | Some a =>
         if keep_arguments_param then Ok (a, kwargs)
         else Ok (a, delete "arguments" kwargs)
     end);
  let kwargs := if negb keep_arguments_param then delete "callback" kwargs else kwargs in
  match arguments with
  | ObjArguments arguments =>
      match list_of_gen (_iterate_argument_clinic E arguments clinic_args) with
      | Raise ParamIssue => Ok (Return NO_VALUES)      (* except ParamIssue *)
      | Raise e => Raise e
      | Ok value_sets => Ok (CallFunc (args ++ (ObjValueSet <$> value_sets)) kwargs)
      end
  | _ => Raise AttributeError                          (* no [unpack] *)
  end.

(** [repack_with_argument_clinic(string, keep_arguments_param,
    keep_callback_param)]: the clinic string is parsed once, when the
    decorator is made. *)
Definition repack_with_argument_clinic (E : Engine) (string : string)
    (keep_arguments_param keep_callback_param : bool)
    : option (result (list PyObj -> gmap String.string PyObj -> result WrapperOutcome)) :=
  parsed ← _parse_argument_clinic string;
  Some (clinic_args ← list_of_gen parsed;
        Ok (wrapper E clinic_args keep_arguments_param)).

(** ** Tracing a variadic argument back to its call site *)

(** [TreeArguments._as_tree_tuple_objects] *)
Definition as_tree_tuple_object (item : nat * Node)
    : result (Node * option Node * nat) :=
  let '(star_count, argument) := item in
  if String.eqb (node_type argument) "argument" then
    c ← node_children argument;
    if length c =? 3 then                       (* argument.children[::2] *)
      a ← index c 0; d ← index c 2; Ok (a, Some d, star_count)
    else Ok (argument, None, star_count)
  else Ok (argument, None, star_count).

Fixpoint gen_map {A B} (f : A -> result B) (l : list A) (r : option exn) : Gen B :=
  match l with
  | [] => mkGen [] r
  | x :: l' =>
      match f x with
      | Ok y => gen_yield y (gen_map f l' r)
      | Raise e => gen_raise e
      end
  end.

Definition _as_tree_tuple_objects (self : TreeArguments)
    : Gen (Node * option Node * nat) :=
  let items := unpack_arglist (argument_node self) in
  gen_map as_tree_tuple_object (yields items) (raised items).

(** [TreeArguments.iter_calling_names_with_star]: the
    [TreeNameDefinition(self.context, name)] it yields, as the pair. *)
Definition iter_calling_names_with_star (self : TreeArguments)
    : Gen (Context * Node) :=
  let objs := _as_tree_tuple_objects self in
  mkGen
    (omap (fun '(name, default, star_count) =>
             if (star_count =? 0) || negb (is_Name name) then None
             else Some (context self, name))
          (yields objs))
    (raised objs).

Record ContextualizedNode : Type := mkContextualizedNode {
  cn_context : option Context;
  cn_node : Node
}.

(** The heap of [Arguments] objects, by identity. *)
Abbreviation Heap := (gmap ArgId Arguments).

Inductive LoopExit : Type :=
| Stopped (arguments : ArgId)        (* the [while] loop was left *)
| ReturnedEmpty                      (* [return []] inside the loop *)
| Raised (e : exn)
| Dangling                           (* an identity the heap does not hold *)
| OutOfFuel.

(** The [while arguments not in old_arguments_list] loop of
    [get_calling_nodes].  The inner [for] loop leaves in its first round
    on every path, so only the last starred name is looked at. *)
Fixpoint calling_loop (fuel : nat) (E : Engine) (heap : Heap)
    (old_arguments_list : list ArgId) (arguments : ArgId) : LoopExit :=
  if bool_decide (arguments ∈ old_arguments_list) then Stopped arguments
  else
    match heap !! arguments with
    | None => Dangling
    | Some (OfTree self) =>
        match fuel with
        | 0 => OutOfFuel
        | S fuel' =>
            let old_arguments_list := old_arguments_list ++ [arguments] in
            match list_of_gen (iter_calling_names_with_star self) with
            | Raise e => Raised e
            | Ok names =>
                match reverse names with
                | [] => calling_loop fuel' E heap old_arguments_list arguments
                | (c, name) :: _ =>
                    match goto E c name with
                    | [ParamName param] =>
                        match param with
                        | DynamicExecutedParams => ReturnedEmpty
                        | ExecutedParam None =>
                            calling_loop fuel' E heap old_arguments_list arguments
                        | ExecutedParam (Some var_args) =>
                            calling_loop fuel' E heap old_arguments_list var_args
                        end
                    | _ => calling_loop fuel' E heap old_arguments_list arguments
                    end
                end
            end
        end
    | Some _ => Stopped arguments    (* not a TreeArguments: break *)
    end.

Inductive Outcome : Type :=
| Returns (nodes : list ContextualizedNode)
| Raises (e : exn)
| DanglingReference
| NoFuel.

(** [TreeArguments.get_calling_nodes(self)], for the object of identity
    [self] in [heap]. *)
Definition get_calling_nodes (fuel : nat) (E : Engine) (heap : Heap)
    (self : ArgId) : Outcome :=
  match calling_loop fuel E heap [] self with
  | OutOfFuel => NoFuel
  | Dangling => DanglingReference
  | Raised e => Raises e
  | ReturnedEmpty => Returns []
  | Stopped arguments =>
      match heap !! arguments with
      | None => DanglingReference
      | Some arguments =>
          match arguments_argument_node arguments, arguments_trailer arguments with
          | Some n, _ =>
              Returns [mkContextualizedNode (arguments_context arguments) n]
          | None, Some t =>
              Returns [mkContextualizedNode (arguments_context arguments) t]
          | None, None => Returns []
          end
      end
  end.

(** ** Notions used in the statements *)

Definition kw_allowed (p : ArgumentClinicParam) : Prop := p_allow_kwargs p = true.
Definition is_optional (p : ArgumentClinicParam) : Prop := p_optional p = true.

(** Every identity a resolved parameter refers to is an object of the
    heap. *)
Definition closed (E : Engine) (heap : Heap) : Prop :=
  forall c n var_args,
    goto E c n = [ParamName (ExecutedParam (Some var_args))] ->
    is_Some (heap !! var_args).

Definition no_state : UnpackState := mkState [] [] [].

(** The state [st] after the further effects [d]. *)
Definition state_app (st d : UnpackState) : UnpackState :=
  mkState (yielded st ++ yielded d) (named_args st ++ named_args d)
          (reported st ++ reported d).

(** A state without the issues. *)
Definition quiet (st : UnpackState) : UnpackState :=
  mkState (yielded st) (named_args st) [].

(** What one round of the loop of [unpack] yields at once, for one item of
    [unpack_arglist]. *)
Definition contribution (E : Engine) (ctx : Context) (funcdef : option Funcdef)
    (item : nat * Node) : list Entry :=
  match unpack_body E ctx funcdef no_state item.1 item.2 with
  | Ok st => yielded st
  | Raise _ => []
  end.

(** The keyword pair [name=value] an item of [unpack_arglist] stands for,
    if it is one: an [argument] node of three children, without star,
    whose first child is a leaf. *)
Definition keyword_pair (ctx : Context) (item : nat * Node) : option Entry :=
  match item with
  | (star_count, BaseNode t [Leaf _ name; _; value]) =>
      if String.eqb t "argument" && negb (star_count =? 1) && negb (star_count =? 2)
      then Some (Some name, LazyTreeValue ctx value)
      else None
  | _ => None
  end.

(** A child of an argument list that the parser did not wrap in an
    [argument] node and that is no comma or star token.  The [argument]
    nodes are keyword pairs, star expansions, generator comprehensions,
    and also a named expression [x := e] passed as argument. *)
Definition plain_positional (n : Node) : Prop :=
  node_eq_str n "," = false /\ is_star_token n = false
  /\ String.eqb (node_type n) "argument" = false.

(** A value without the iterable capability: no [__iter__] attribute to
    look up, no [py__iter__] to call. *)
Definition lacks_iterable (E : Engine) (v : Value) : Prop :=
  py__getattribute__ E v "__iter__" = [] /\ py__iter__ E v = None.

(** The three kinds of target of a double-star expansion that
    [_star_star_dict] tells apart, in the order it tests them. *)
Definition native_dict (E : Engine) (v : Value) : bool :=
  is_CompiledInstance E v && String.eqb (string_name E v) "dict".
Definition dict_literal (E : Engine) (v : Value) : bool :=
  negb (native_dict E v) && is_Sequence E v && String.eqb (array_type E v) "dict".
Definition no_mapping (E : Engine) (v : Value) : bool :=
  negb (native_dict E v)
  && negb (is_Sequence E v && String.eqb (array_type E v) "dict").

(** The issues added for a list of candidates when a callee is known. *)
Definition issues_if (funcdef : option Funcdef) (mk : Funcdef -> Issue) : list Issue :=
  match funcdef with
  | Some f => [mk f]
  | None => []
  end.

(** ** Concrete call sites and a small engine, for the examples *)

Module Demo.

Definition name (s : string) : Node := Leaf "name" s.
Definition operator (s : string) : Node := Leaf "operator" s.
Definition number (s : string) : Node := Leaf "number" s.
Definition comma : Node := operator ",".

(** [k=e], [*e], [**e] as parso builds them. *)
Definition keyword (k : string) (e : Node) : Node :=
  BaseNode "argument" [name k; operator "="; e].
Definition star (e : Node) : Node := BaseNode "argument" [operator "*"; e].
Definition star_star (e : Node) : Node := BaseNode "argument" [operator "**"; e].

(** The clause [for i in seq] of a comprehension, and the walrus
    argument [x := e], as parso builds them. *)
Definition keyword_leaf (s : string) : Node := Leaf "keyword" s.
Definition for_in (i seq : string) : Node :=
  BaseNode "sync_comp_for" [keyword_leaf "for"; name i; keyword_leaf "in"; name seq].
Definition named_expression (x : string) (e : Node) : Node :=
  BaseNode "argument" [name x; operator ":="; e].

Definition is_name (n : Node) (s : string) : bool :=
  match n with
  | Leaf t v => String.eqb t "name" && String.eqb v s
  | BaseNode _ _ => false
  end.

Definition known (h : nat) : LazyValue := LazyKnownValue (InferredValue h).

(** Handles: 1 a list of three elements, 2 a dict literal with the keys
    [a] and [b], 3 an integer, 4 a list that holds itself, 6 an instance
    of the native [dict]. *)
Definition handle_of (n : Node) : nat :=
  if is_name n "seq" then 1 else if is_name n "d" then 2
  else if is_name n "n" then 3 else if is_name n "loop" then 4
  else if is_name n "native" then 6 else 0.

Definition handle (v : Value) : nat :=
  match v with
  | InferredValue h => h
  | _ => 0
  end.

Definition demo_goto (c : Context) (n : Node) : list Name :=
  if is_name n "a" then [ParamName (ExecutedParam (Some 2))]
  else if is_name n "b" then [ParamName (ExecutedParam (Some 3))]
  else if is_name n "c" then [ParamName (ExecutedParam (Some 4))]
  else if is_name n "u" then [ParamName (ExecutedParam (Some 6))]
  else if is_name n "v" then [ParamName (ExecutedParam (Some 5))]
  else [].

Definition engine : Engine := {|
  infer_node := fun _ n => [InferredValue (handle_of n)];
  infer := fun l =>
    match l with
    | LazyKnownValue v => [v]
    | LazyKnownValues vs => vs
    | LazyTreeValue _ n => [InferredValue (handle_of n)]
    | MergedLazyValues _ => []
    end;
  py__getattribute__ := fun v _ =>
    if bool_decide (handle v ∈ [1; 2; 4; 6]) then [InferredValue 99] else [];
  py__iter__ := fun v =>
    match handle v with
    | 1 => Some [known 11; known 12; known 13]
    | 4 => Some [known 4]
    | _ => None
    end;
  is_CompiledInstance := fun v => handle v =? 6;
  string_name := fun _ => "dict";
  is_Sequence := fun v => bool_decide (handle v ∈ [1; 2; 4]);
  array_type := fun v => if handle v =? 2 then "dict" else "list";
  exact_key_items := fun v =>
    if handle v =? 2 then [("a", known 21); ("b", known 22)] else [];
  get_merged_lazy_value := fun l =>
    match l with
    | [x] => x
    | _ => MergedLazyValues l
    end;
  goto := demo_goto
|}.

(** The same engine, except that the name [either] is inferred to three
    candidates: the dict literal, the native [dict] instance and the
    integer. *)
Definition union_engine : Engine := {|
  infer_node := fun c n =>
    if is_name n "either" then [InferredValue 2; InferredValue 6; InferredValue 3]
    else infer_node engine c n;
  infer := infer engine;
  py__getattribute__ := py__getattribute__ engine;
  py__iter__ := py__iter__ engine;
  is_CompiledInstance := is_CompiledInstance engine;
  string_name := string_name engine;
  is_Sequence := is_Sequence engine;
  array_type := array_type engine;
  exact_key_items := exact_key_items engine;
  get_merged_lazy_value := get_merged_lazy_value engine;
  goto := goto engine
|}.

Definition call (c : Context) (n : Node) : TreeArguments :=
  mkTreeArguments c (Some n) None.

(** Objects 1, 2, 3: [f] called with [*a] inside [g], [g] called with
    [*b] inside [h], [h] called with [*c] inside [k]; object 4: the call
    [k(x, y)] that started the chain.  Objects 5 and 6: [p] called with
    [*u] and [q] called with [*v], forwarding to each other. *)
Definition heap : Heap :=
  list_to_map
    [(1, OfTree (call 10 (star (name "a"))));
     (2, OfTree (call 20 (star (name "b"))));
     (3, OfTree (call 30 (star (name "c"))));
     (4, OfTree (call 40 (BaseNode "arglist" [name "x"; comma; name "y"])));
     (5, OfTree (call 50 (star (name "u"))));
     (6, OfTree (call 60 (star (name "v"))))].

End Demo.

(** ** Forcing all arguments *)

(** What a call of [infer_all] did: the iterations of [try_iter_content],
    the issues handed to the analysis collector, and the exception that
    ended it, if any. *)
Record InferredAll : Type := mkInferredAll {
  iterated : list IterEvent;
  all_issues : list Issue;
  all_raised : option exn
}.

(** [_AbstractArgumentsMixin.infer_all(self, funcdef)].  The body calls
    [self.unpack()] without handing [funcdef] on. *)
Definition infer_all (fuel : nat) (E : Engine) (self : Arguments)
    (funcdef : option Funcdef) : option InferredAll :=
  let unpacked := arguments_unpack E self None in
  evs ← for_each (yields (stream unpacked))
          (fun '(key, lazy_value) => try_iter_content fuel E (infer E lazy_value) 0);
  Some (mkInferredAll evs (issues unpacked) (raised (stream unpacked))).

(** ** Further notions used in the statements *)

(** All characters of a string are in a class. *)
Fixpoint string_all (p : ascii -> bool) (s : string) : bool :=
  match s with
  | EmptyString => true
  | String a s' => p a && string_all p s'
  end.

(** A non-empty string of word characters. *)
Definition identifier (s : string) : bool :=
  match s with
  | EmptyString => false
  | String _ _ => string_all is_word s
  end.

(** The strings a pattern stands for. *)
Fixpoint denotes (r : Re.regex) (w : string) : Prop :=
  match r with
  | Re.Eps => w = EmptyString
  | Re.Cls p => exists a, w = String a EmptyString /\ p a = true
  | Re.Seq r1 r2 => exists w1 w2, w = w1 +:+ w2 /\ denotes r1 w1 /\ denotes r2 w2
  | Re.Alt r1 r2 => denotes r1 w \/ denotes r2 w
  | Re.Opt r1 => w = EmptyString \/ denotes r1 w
  | Re.Star p => string_all p w = true
  | Re.Group _ r1 => denotes r1 w
  end.

(** Every capturing group of [r] only ever captures text that is [good]
    for its number. *)
Fixpoint groups_capture (good : nat -> string -> Prop) (r : Re.regex) : Prop :=
  match r with
  | Re.Seq r1 r2 | Re.Alt r1 r2 => groups_capture good r1 /\ groups_capture good r2
  | Re.Opt r1 => groups_capture good r1
  | Re.Group n r1 => groups_capture good r1 /\ forall w, denotes r1 w -> good n w
  | _ => True
  end.

Definition captures_are (good : nat -> string -> Prop) (c : Re.captures) : Prop :=
  forall n g, c n = Some g -> good n g.

(** What the two groups of the clinic pattern capture: group 1 an opening
    bracket, group 2 some stars and then a name. *)
Definition clinic_group (n : nat) (g : string) : Prop :=
  match n with
  | 1 => g = "["
  | 2 => exists stars word,
           g = stars +:+ word /\ string_all (is_char "*") stars = true
           /\ identifier word = true
  | _ => True
  end.

(** A clinic parameter without star: the matcher takes neither its [*]
    nor its [**] branch. *)
Definition plain_parameter (p : ArgumentClinicParam) : Prop :=
  p_stars p <> 1 /\ p_stars p <> 2.

(** The exceptions that walking a syntax tree can end in. *)
Definition tree_error (e : exn) : Prop :=
  e = AttributeError \/ e = IndexError \/ e = AssertionError \/ e = RuntimeError.

(** The shape the grammar gives an [argument] node: a star token and its
    target; an expression and a comprehension clause (a [comp_for] clause
    holding its [sync_comp_for] as second child); or a leaf, a token and
    an expression. *)
Definition comp_clause_ok (n : Node) : bool :=
  if String.eqb (node_type n) "comp_for" then
    match n with
    | BaseNode _ (_ :: _ :: _) => true
    | _ => false
    end
  else true.

Definition argument_ok (n : Node) : bool :=
  match n with
  | Leaf t _ => negb (String.eqb t "argument")
  | BaseNode t cs =>
      if String.eqb t "argument" then
        match cs with
        | [c0; c1] => is_star_token c0 || comp_clause_ok c1
        | [Leaf t0 v0; _; _] => negb (is_star_token (Leaf t0 v0))
        | _ => false
        end
      else true
  end.

(** An argument that [unpack] takes as it is, without star: any node that
    is no [argument], a generator comprehension, or a keyword pair. *)
Definition positional_ok (n : Node) : bool :=
  match n with
  | Leaf t _ => negb (String.eqb t "argument")
  | BaseNode t cs =>
      if String.eqb t "argument" then
        match cs with
        | [c0; c1] => negb (is_star_token c0) && comp_clause_ok c1
        | [Leaf t0 v0; _; _] => negb (is_star_token (Leaf t0 v0))
        | _ => false
        end
      else true
  end.

Definition is_Some_result {A} (r : result A) : Prop :=
  match r with
  | Ok _ => True
  | Raise _ => False
  end.

(** An item of [unpack_arglist] that [unpack] can take: a star target, a
    double-star target, or a well-shaped argument without star. *)
Definition item_ok (item : nat * Node) : Prop :=
  item.1 = 1 \/ item.1 = 2 \/ (item.1 = 0 /\ positional_ok item.2 = true).

(** The children of an argument list: commas, star tokens followed by
    their target, and well-shaped arguments. *)
Fixpoint children_ok (children : list Node) : bool :=
  match children with
  | [] => true
  | child :: rest =>
      if node_eq_str child "," then children_ok rest
      else if is_star_token child then
        match rest with
        | [] => false
        | _ :: rest' => children_ok rest'
        end
      else argument_ok child && children_ok rest
  end.

Definition arglist_ok (arglist : option Node) : bool :=
  match arglist with
  | None => true
  | Some (Leaf t _) =>
      negb (String.eqb t "arglist" || String.eqb t "testlist" || String.eqb t "argument")
  | Some (BaseNode t cs) =>
      if String.eqb t "arglist" || String.eqb t "testlist" then children_ok cs
      else argument_ok (BaseNode t cs)
  end.

(** The node that [unpack] hands to [GeneratorComprehension] as clause,
    for an [argument] node of two children: the second child, or the
    second child of that one when it is a [comp_for] node. *)
Definition comp_clause (el : Node) : option Node :=
  match el with
  | BaseNode t [_; c1] =>
      if String.eqb t "argument" then
        if String.eqb (node_type c1) "comp_for" then
          match c1 with
          | BaseNode _ (_ :: sync :: _) => Some sync
          | _ => None
          end
        else Some c1
      else None
  | _ => None
  end.

(** An item of [unpack_arglist] whose comprehension clause, if [unpack]
    takes it as a generator comprehension, is a [sync_comp_for] node, as
    the grammar has it. *)
Definition sync_clause (item : nat * Node) : bool :=
  match item.1, comp_clause item.2 with
  | 0, Some sync => String.eqb (node_type sync) "sync_comp_for"
  | _, _ => true
  end.

(** What one round of the loop of [get_calling_nodes] decides for a
    [TreeArguments]: go on with the [var_args] of the parameter behind the
    last starred name, stay, return the empty list, or fail. *)
Inductive Round : Type :=
| Follow (var_args : ArgId)
| Stay
| GiveUp
| Fail (e : exn).

Definition round (E : Engine) (self : TreeArguments) : Round :=
  match list_of_gen (iter_calling_names_with_star self) with
  | Raise e => Fail e
  | Ok names =>
      match reverse names with
      | [] => Stay
      | (c, name) :: _ =>
          match goto E c name with
          | [ParamName DynamicExecutedParams] => GiveUp
          | [ParamName (ExecutedParam (Some var_args))] => Follow var_args
          | _ => Stay
          end
      end
  end.

(** Each object of the list is a [TreeArguments] whose round follows to
    the next object of the list. *)
Fixpoint forwards (E : Engine) (heap : Heap) (l : list ArgId) : Prop :=
  match l with
  | a :: l' =>
      match l' with
      | b :: _ =>
          (exists self, heap !! a = Some (OfTree self) /\ round E self = Follow b)
          /\ forwards E heap l'
      | [] => True
      end
  | [] => True
  end.

(** The node [get_calling_nodes] reports for the object it ends at. *)
Definition provenance (a : Arguments) : list ContextualizedNode :=
  match arguments_argument_node a, arguments_trailer a with
  | Some n, _ => [mkContextualizedNode (arguments_context a) n]
  | None, Some t => [mkContextualizedNode (arguments_context a) t]
  | None, None => []
  end.

(** The starred name an item of [unpack_arglist] gives to follow. *)
Definition starred_name (ctx : Context) (item : nat * Node) : option (Context * Node) :=
  let '(star_count, el) := item in
  if negb (star_count =? 0) && is_Name el then Some (ctx, el) else None.

(** A string contains a character. *)
Fixpoint has_char (c : ascii) (s : string) : bool :=
  match s with
  | EmptyString => false
  | String a s' => Ascii.eqb a c || has_char c s'
  end.

(** One way for a pattern to match a prefix of a string: from the string
    and the groups before to the rest of the string and the groups after.
    [Re.run] finds the first such way that its continuation accepts. *)
Inductive matches_to
    : Re.regex -> string -> Re.captures -> string -> Re.captures -> Prop :=
| m_eps s c : matches_to Re.Eps s c s c
| m_cls p a s c : p a = true -> matches_to (Re.Cls p) (String a s) c s c
| m_seq r1 r2 s c s1 c1 s2 c2 :
    matches_to r1 s c s1 c1 -> matches_to r2 s1 c1 s2 c2 ->
    matches_to (Re.Seq r1 r2) s c s2 c2
| m_alt_l r1 r2 s c s' c' :
    matches_to r1 s c s' c' -> matches_to (Re.Alt r1 r2) s c s' c'
| m_alt_r r1 r2 s c s' c' :
    matches_to r2 s c s' c' -> matches_to (Re.Alt r1 r2) s c s' c'
| m_opt_some r s c s' c' :
    matches_to r s c s' c' -> matches_to (Re.Opt r) s c s' c'
| m_opt_none r s c : matches_to (Re.Opt r) s c s c
| m_star p w s c :
    string_all p w = true -> matches_to (Re.Star p) (w +:+ s) c s c
| m_group n r s c s' c' :
    matches_to r s c s' c' ->
    matches_to (Re.Group n r) s c s' (Re.capture n (Re.consumed s s') c').

(** A pattern without capturing groups. *)
Fixpoint no_groups (r : Re.regex) : bool :=
  match r with
  | Re.Seq r1 r2 | Re.Alt r1 r2 => no_groups r1 && no_groups r2
  | Re.Opt r1 => no_groups r1
  | Re.Group _ _ => false
  | _ => true
  end.

(** The child of an argument list as an item of [unpack_arglist]: the
    target of a starred [argument] node with the length of its star
    token, any other child with 0. *)
Definition item_of (child : Node) : nat * Node :=
  match child with
  | BaseNode t [Leaf t0 v0; c1] =>
      if String.eqb t "argument" && is_star_token (Leaf t0 v0)
      then (String.length v0, c1) else (0, child)
  | _ => (0, child)
  end.

(** ** A second engine, for the examples *)

(** As [Demo.engine], but the name [dyn] resolves to a parameter that the
    dynamic search made up. *)
Definition dynamic_engine : Engine := {|
  infer_node := infer_node Demo.engine;
  infer := infer Demo.engine;
  py__getattribute__ := py__getattribute__ Demo.engine;
  py__iter__ := py__iter__ Demo.engine;
  is_CompiledInstance := is_CompiledInstance Demo.engine;
  string_name := string_name Demo.engine;
  is_Sequence := is_Sequence Demo.engine;
  array_type := array_type Demo.engine;
  exact_key_items := exact_key_items Demo.engine;
  get_merged_lazy_value := get_merged_lazy_value Demo.engine;
  goto := fun c n =>
    if Demo.is_name n "dyn" then [ParamName DynamicExecutedParams]
    else Demo.demo_goto c n
|}.

(** Object 1 is [f] called with [*a], object 2 is [g] called with [*dyn]. *)
Definition dynamic_heap : Heap :=
  list_to_map
    [(1, OfTree (Demo.call 10 (Demo.star (Demo.name "a"))));
     (2, OfTree (Demo.call 20 (Demo.star (Demo.name "dyn"))))].

(** * Properties *)

(** ** The clinic pattern always takes at least one character *)

Lemma star_consumes {R} p s (k : string -> option R) x :
  Re.star p s k = Some x ->
  exists s', k s' = Some x /\ String.length s' <= String.length s.
Proof.
  revert k x. induction s as [|a s IH]; intros k x H; simpl in H.
  - eauto.
  - destruct (p a); [|eauto].
    destruct (Re.star p s k) as [y|] eqn:Hs; [|eauto].
    injection H as ->. apply IH in Hs as (s' & ? & ?).
    exists s'. simpl. split; [done|lia].
Qed.

Lemma run_consumes {R} r s c (k : string -> Re.captures -> option R) x :
  Re.run r s c k = Some x ->
  exists s' c', k s' c' = Some x
    /\ String.length s' + Re.min_length r <= String.length s.
Proof.
  revert s c k x.
  induction r as [|p|r1 IH1 r2 IH2|r1 IH1 r2 IH2|r1 IH1|p|n r1 IH1];
    intros s c k x H; simpl in H.
  - exists s, c. simpl. split; [done|lia].
  - destruct s as [|a s]; [done|]. destruct (p a); [|done].
    exists s, c. simpl. split; [done|lia].
  - apply IH1 in H as (s1 & c1 & H & ?).
    apply IH2 in H as (s2 & c2 & H & ?).
    exists s2, c2. simpl. split; [done|lia].
  - destruct (Re.run r1 s c k) as [y|] eqn:H1.
    + injection H as ->. apply IH1 in H1 as (s' & c' & ? & ?).
      exists s', c'. simpl. split; [done|lia].
    + apply IH2 in H as (s' & c' & ? & ?).
      exists s', c'. simpl. split; [done|lia].
  - destruct (Re.run r1 s c k) as [y|] eqn:H1.
    + injection H as ->. apply IH1 in H1 as (s' & c' & ? & ?).
      exists s', c'. simpl. split; [done|lia].
    + exists s, c. simpl. split; [done|lia].
  - apply star_consumes in H as (s' & ? & ?).
    exists s', c. simpl. split; [done|lia].
  - apply IH1 in H as (s' & c' & ? & ?). eauto.
Qed.

Lemma clinic_match_shorter s m :
  Re.re_match clinic_re s = Some m ->
  String.length (Re.rest m) < String.length s.
Proof.
  intros H. apply run_consumes in H as (s' & c' & [= <-] & Hlen).
  simpl in *. lia.
Qed.

(** Enough rounds: the parser's loop always comes to an end. *)
Lemma parse_loop_fuel fuel allow_kwargs optional s :
  String.length s < fuel ->
  is_Some (parse_loop fuel allow_kwargs optional s).
Proof.
  revert allow_kwargs optional s.
  induction fuel as [|fuel IH]; intros a o s Hlen; [lia|].
  destruct s as [|ch s]; [by eexists|].
  cbn [parse_loop].
  destruct (Re.re_match clinic_re (String ch s)) as [m|] eqn:Hm; [|by eexists].
  apply clinic_match_shorter in Hm. simpl in Hm, Hlen.
  destruct (negb _).
  - apply IH. lia.
  - apply fmap_is_Some, IH. lia.
Qed.

Lemma _parse_argument_clinic_total s : is_Some (_parse_argument_clinic s).
Proof. apply parse_loop_fuel. lia. Qed.

(** ** Flags of parsed clinic parameters *)

Lemma parse_loop_allow fuel optional s g :
  parse_loop fuel true optional s = Some g -> Forall kw_allowed (yields g).
Proof.
  revert optional s g. induction fuel as [|fuel IH]; intros o s g H; [done|].
  destruct s as [|ch s]; [by injection H as <-|].
  cbn [parse_loop] in H.
  destruct (Re.re_match clinic_re (String ch s)) as [m|]; [|by injection H as <-].
  destruct (negb _); [by eapply IH|].
  apply fmap_Some in H as (g' & Hg' & ->).
  constructor; [done|]. by eapply IH.
Qed.

Lemma parse_loop_optional fuel allow_kwargs s g :
  parse_loop fuel allow_kwargs true s = Some g -> Forall is_optional (yields g).
Proof.
  revert allow_kwargs s g. induction fuel as [|fuel IH]; intros a s g H; [done|].
  destruct s as [|ch s]; [by injection H as <-|].
  cbn [parse_loop] in H.
  destruct (Re.re_match clinic_re (String ch s)) as [m|]; [|by injection H as <-].
  destruct (negb _); [by eapply IH|].
  apply fmap_Some in H as (g' & Hg' & ->).
  constructor; [done|]. by eapply IH.
Qed.

Lemma parse_loop_monotone fuel allow_kwargs optional s g l1 p l2 :
  parse_loop fuel allow_kwargs optional s = Some g ->
  yields g = l1 ++ p :: l2 ->
  (is_optional p -> Forall is_optional l2)
  /\ (kw_allowed p \/ 0 < p_stars p -> Forall kw_allowed l2).
Proof.
  revert allow_kwargs optional s g l1.
  induction fuel as [|fuel IH]; intros a o s g l1 H Hy; [done|].
  destruct s as [|ch s].
  { injection H as <-. by destruct l1. }
  cbn [parse_loop] in H.
  destruct (Re.re_match clinic_re (String ch s)) as [m|];
    [|injection H as <-; by destruct l1].
  destruct (negb _); [by eapply IH|].
  apply fmap_Some in H as (g' & Hg' & ->). simpl in Hy.
  destruct l1 as [|q l1]; simpl in Hy.
  - injection Hy as <- <-. split.
    + unfold is_optional; simpl. intros Ho. rewrite Ho in Hg'.
      by eapply parse_loop_optional.
    + unfold kw_allowed at 1; simpl. intros Hp.
      eapply parse_loop_allow.
      replace true with (a || negb (count_char "*" (default EmptyString (Re.group m 2)) =? 0));
        [done|].
      destruct Hp as [->|Hp]; [done|].
      destruct (count_char _ _); [lia|]. by rewrite orb_true_r.
  - injection Hy as _ Hy. by eapply IH.
Qed.

(** C5 (as amended).  Keyword acceptance and optionality are sticky.  At
    any state of the parser's loop: if the next token is a slash, every
    parameter parsed from there on is keyword-allowed; if it is a parameter
    behind an opening bracket, that parameter and every later one is
    optional.  In the parsed list, every parameter after an optional one is
    optional, and every parameter after a keyword-allowed or a starred one
    is keyword-allowed.  In particular ["self, /, x, *args, y"] marks [x],
    [args] and [y] as keyword-allowed (and [self] not). *)
Theorem clinic_flags_sticky :
  (forall fuel allow_kwargs optional s m g,
      s <> EmptyString ->
      Re.re_match clinic_re s = Some m ->
      parse_loop (S fuel) allow_kwargs optional s = Some g ->
      (str_truthy (Re.group m 2) = false -> Forall kw_allowed (yields g))
      /\ (str_truthy (Re.group m 2) = true -> str_truthy (Re.group m 1) = true ->
          Forall is_optional (yields g)))
  /\ (forall s g l1 p l2,
      _parse_argument_clinic s = Some g ->
      yields g = l1 ++ p :: l2 ->
      (is_optional p -> Forall is_optional l2)
      /\ (kw_allowed p \/ 0 < p_stars p -> Forall kw_allowed l2))
  /\ _parse_argument_clinic "self, /, x, *args, y"
     = Some (mkGen [mkParam "self" false false 0; mkParam "x" false true 0;
                    mkParam "args" false true 1; mkParam "y" false true 0] None).
Proof.
  split; [|split].
  - intros fuel a o s m g Hs Hm H.
    destruct s as [|ch s]; [done|]. cbn [parse_loop] in H. rewrite Hm in H.
    split.
    + intros H2. rewrite H2 in H. simpl in H. by eapply parse_loop_allow.
    + intros H2 Hb. rewrite H2, Hb, orb_true_r in H. simpl in H.
      apply fmap_Some in H as (g' & Hg' & ->).
      constructor; [done|]. by eapply parse_loop_optional.
  - intros s g l1 p l2. apply parse_loop_monotone.
  - vm_compute. reflexivity.
Qed.

Lemma clinic_flags_sticky_witness :
  Forall kw_allowed [mkParam "y" false true 0]
  /\ Forall kw_allowed [mkParam "b" true true 0].
Proof.
  destruct clinic_flags_sticky as (Hloop & Hlist & _). split.
  - refine (proj2 (Hlist "x, *a, y"
              (mkGen [mkParam "x" false false 0; mkParam "a" false false 1;
                      mkParam "y" false true 0] None)
              [mkParam "x" false false 0] (mkParam "a" false false 1)
              [mkParam "y" false true 0] _ _) _).
    + vm_compute; reflexivity.
    + reflexivity.
    + right. simpl. lia.
  - destruct (Re.re_match clinic_re ", /[, b]") as [m|] eqn:Hm; [|by vm_compute in Hm].
    refine (proj1 (Hloop 9 false true ", /[, b]" m
              (mkGen [mkParam "b" true true 0] None) _ Hm _) _).
    + done.
    + vm_compute; reflexivity.
    + vm_compute in Hm. by injection Hm as <-.
Defined.

(** C5, counterexample.  Parsing ["$self, /, x, *, y"] raises at once (the
    pattern matches no prefix of the string: [$] is no word character), so
    no parameter is yielded and neither [x] nor [y] is marked at all. *)
Lemma clinic_dollar_self_unparsed :
  _parse_argument_clinic "$self, /, x, *, y" = Some (gen_raise AttributeError)
  /\ ~ (exists g p, _parse_argument_clinic "$self, /, x, *, y" = Some g
                    /\ p ∈ yields g /\ p_name p = "x" /\ kw_allowed p).
Proof.
  assert (H : _parse_argument_clinic "$self, /, x, *, y" = Some (gen_raise AttributeError))
    by (vm_compute; reflexivity).
  split; [done|].
  intros (g & p & Hg & Hp & _). rewrite H in Hg. injection Hg as <-.
  simpl in Hp. by apply elem_of_nil in Hp.
Qed.

(** ** Clinic matching *)

(** The call of [unpack] either returns what a loop over it sees, or it
    raises [NotImplementedError] at once. *)
Lemma call_unpack_cases E a funcdef :
  call_unpack E a funcdef = Ok (arguments_unpack E a funcdef)
  \/ (call_unpack E a funcdef = Raise NotImplementedError
      /\ arguments_unpack E a funcdef = mkUnpacked (gen_raise NotImplementedError) []).
Proof. destruct a; simpl; auto. Qed.

Lemma iterate_argument_clinic_stream E arguments parameters :
  raised (stream (arguments_unpack E arguments None)) <> Some NotImplementedError
  \/ yields (stream (arguments_unpack E arguments None)) <> [] ->
  _iterate_argument_clinic E arguments parameters
  = clinic_loop E parameters (stream (arguments_unpack E arguments None)).
Proof.
  intros H. unfold _iterate_argument_clinic.
  destruct (call_unpack_cases E arguments None) as [-> | [_ Ha]]; [done|].
  rewrite Ha in H. simpl in H. by destruct H.
Qed.

(** C4 (as amended).  The two optional parameters are written
    ["[sep, maxsplit]"] in the notation the parser accepts.  Matched
    against an empty stream they give two empty value sets and no
    exception.  Matched against a stream that holds more than two unnamed
    entries they give the value sets of the first two; the rest of the
    stream is never asked for, and no [ParamIssue] is raised. *)
Theorem clinic_two_optional_parameters :
  let parameters := [mkParam "sep" true false 0; mkParam "maxsplit" true false 0] in
  _parse_argument_clinic "[sep, maxsplit]" = Some (mkGen parameters None)
  /\ (forall E arguments,
        stream (arguments_unpack E arguments None) = mkGen [] None ->
        _iterate_argument_clinic E arguments parameters
        = mkGen [NO_VALUES; NO_VALUES] None)
  /\ (forall E arguments a1 a2 extra r,
        stream (arguments_unpack E arguments None)
        = mkGen ((None, a1) :: (None, a2) :: extra) r ->
        _iterate_argument_clinic E arguments parameters
        = mkGen [infer E a1; infer E a2] None).
Proof.
  intros parameters. split; [by vm_compute|split].
  - intros E arguments H. rewrite iterate_argument_clinic_stream by (rewrite H; auto).
    by rewrite H.
  - intros E arguments a1 a2 extra r H.
    rewrite iterate_argument_clinic_stream by (rewrite H; auto).
    rewrite H. cbn. by rewrite !andb_false_r.
Qed.

Lemma clinic_two_optional_parameters_witness :
  _iterate_argument_clinic Demo.engine (ValuesArguments [])
    [mkParam "sep" true false 0; mkParam "maxsplit" true false 0]
  = mkGen [NO_VALUES; NO_VALUES] None
  /\ _iterate_argument_clinic Demo.engine
       (ValuesArguments [[InferredValue 1]; [InferredValue 3]; [InferredValue 3]])
       [mkParam "sep" true false 0; mkParam "maxsplit" true false 0]
     = mkGen [[InferredValue 1]; [InferredValue 3]] None.
Proof.
  destruct clinic_two_optional_parameters as (_ & Hnone & Hextra). split.
  - apply Hnone. reflexivity.
  - apply (Hextra Demo.engine _ (LazyKnownValues [InferredValue 1])
             (LazyKnownValues [InferredValue 3])
             [(None, LazyKnownValues [InferredValue 3])] None).
    reflexivity.
Defined.

(** C4, counterexample.  The string ["sep=None, maxsplit=-1"] cannot be
    parsed: after [sep] the pattern matches nothing at [=None], and making
    the decorator raises.  And for the two optional parameters, a third
    positional argument raises nothing. *)
Lemma clinic_defaults_unparsed :
  _parse_argument_clinic "sep=None, maxsplit=-1"
  = Some (mkGen [mkParam "sep" false false 0] (Some AttributeError))
  /\ repack_with_argument_clinic Demo.engine "sep=None, maxsplit=-1" false false
     = Some (Raise AttributeError)
  /\ raised (_iterate_argument_clinic Demo.engine
               (ValuesArguments [[InferredValue 1]; [InferredValue 3]; [InferredValue 3]])
               [mkParam "sep" true false 0; mkParam "maxsplit" true false 0])
     <> Some ParamIssue.
Proof. split; [|split]; by vm_compute. Qed.

(** When the head parameter is a plain one, each of the three mismatches
    ends the matching with [ParamIssue]. *)
Lemma clinic_loop_keyword E p ps k a l r :
  p_stars p <> 1 -> p_stars p <> 2 ->
  clinic_loop E (p :: ps) (mkGen ((Some k, a) :: l) r) = gen_raise ParamIssue.
Proof.
  intros H1 H2. simpl.
  by rewrite (proj2 (Nat.eqb_neq _ _) H1), (proj2 (Nat.eqb_neq _ _) H2).
Qed.

Lemma clinic_loop_missing E p ps :
  p_stars p <> 1 -> p_stars p <> 2 -> p_optional p = false ->
  clinic_loop E (p :: ps) (mkGen [] None) = gen_raise ParamIssue.
Proof.
  intros H1 H2 Ho. simpl.
  by rewrite (proj2 (Nat.eqb_neq _ _) H1), (proj2 (Nat.eqb_neq _ _) H2), Ho.
Qed.

Lemma clinic_loop_unresolved E p ps a l r :
  p_stars p <> 1 -> p_stars p <> 2 -> p_optional p = false -> infer E a = [] ->
  clinic_loop E (p :: ps) (mkGen ((None, a) :: l) r) = gen_raise ParamIssue.
Proof.
  intros H1 H2 Ho Hi. simpl.
  by rewrite (proj2 (Nat.eqb_neq _ _) H1), (proj2 (Nat.eqb_neq _ _) H2), Ho, Hi.
Qed.

(** C6.  If matching the arguments against the clinic parameters raises
    [ParamIssue], the wrapper returns [NO_VALUES] itself and does not go on
    to call the decorated function; whatever the arguments, [ParamIssue]
    is never what a call of the wrapper raises.  The three mismatches of a
    plain parameter (a keyed entry, no entry for a parameter that is not
    optional, an entry without values for one) all raise it. *)
Theorem clinic_decorator_catches_ParamIssue :
  (forall E clinic_args keep_arguments_param args (kwargs : gmap string PyObj) arguments,
      kwargs !! "arguments" = Some (ObjArguments arguments) ->
      raised (_iterate_argument_clinic E arguments clinic_args) = Some ParamIssue ->
      wrapper E clinic_args keep_arguments_param args kwargs = Ok (Return NO_VALUES))
  /\ (forall E clinic_args keep_arguments_param args kwargs,
      wrapper E clinic_args keep_arguments_param args kwargs <> Raise ParamIssue)
  /\ (forall E p ps (it : PushBackIterator),
      p_stars p <> 1 -> p_stars p <> 2 ->
      (exists k a l, yields it = (Some k, a) :: l)
      \/ (it = mkGen [] None /\ p_optional p = false)
      \/ (exists a l, yields it = (None, a) :: l /\ infer E a = [] /\ p_optional p = false) ->
      clinic_loop E (p :: ps) it = gen_raise ParamIssue).
Proof.
  split; [|split].
  - intros E clinic_args keep args kwargs arguments Hk Hr.
    unfold wrapper. rewrite Hk. unfold list_of_gen.
    destruct keep; simpl; by rewrite Hr.
  - intros E clinic_args keep args kwargs. unfold wrapper.
    destruct (kwargs !! "arguments") as [[a| |]|]; destruct keep; simpl; try done;
      destruct (list_of_gen _) as [|[]]; done.
  - intros E p ps [l r] H1 H2 [(k & a & l' & Hy)|[[Hit Ho]|(a & l' & Hy & Hi & Ho)]];
      simpl in *.
    + subst l. by apply clinic_loop_keyword.
    + injection Hit as -> ->. by apply clinic_loop_missing.
    + subst l. by apply clinic_loop_unresolved.
Qed.

Lemma clinic_decorator_catches_ParamIssue_witness :
  wrapper Demo.engine [mkParam "string" false false 0] false []
    {[ "arguments" := ObjArguments (ValuesArguments []) ]}
  = Ok (Return NO_VALUES)
  /\ clinic_loop Demo.engine [mkParam "string" false false 0]
       (mkGen [(Some "sep", Demo.known 1)] None)
     = gen_raise ParamIssue.
Proof.
  destruct clinic_decorator_catches_ParamIssue as (Hcatch & _ & Hraise). split.
  - apply (Hcatch _ _ _ _ _ (ValuesArguments [])); reflexivity.
  - apply Hraise; [simpl; lia | simpl; lia |].
    left. by exists "sep", (Demo.known 1), [].
Defined.

(** ** Forced iteration *)

Lemma for_each_total {A B} (P : B -> Prop) (l : list A) (body : A -> option (list B)) :
  (forall x, x ∈ l -> exists evs, body x = Some evs /\ Forall P evs) ->
  exists evs, for_each l body = Some evs /\ Forall P evs.
Proof.
  induction l as [|x l IH]; intros H; simpl.
  - by exists [].
  - destruct (H x) as (e1 & -> & H1); [left|].
    destruct IH as (e2 & -> & H2).
    { intros y Hy. apply H. by right. }
    exists (e1 ++ e2). split; [done|]. by apply Forall_app.
Qed.

Lemma try_iter_content_total fuel E types depth :
  11 - depth < fuel ->
  exists evs, try_iter_content fuel E types depth = Some evs
    /\ Forall (fun ev => depth <= iter_depth ev <= 10) evs.
Proof.
  revert types depth. induction fuel as [|fuel IH]; intros types depth Hf; [lia|].
  cbn [try_iter_content].
  destruct (10 <? depth) eqn:Hd; [by exists []|].
  apply Nat.ltb_ge in Hd.
  apply for_each_total. intros typ _.
  destruct (py__iter__ E typ) as [lazy_values|]; [|by exists []].
  destruct (for_each_total (fun ev => depth <= iter_depth ev <= 10) lazy_values
              (fun lazy_value =>
                 try_iter_content fuel E (infer E lazy_value) (depth + 1)))
    as (evs & -> & Hevs).
  { intros lv _. destruct (IH (infer E lv) (depth + 1)) as (evs & -> & Hevs); [lia|].
    exists evs. split; [done|].
    eapply Forall_impl; [exact Hevs|]. simpl. lia. }
  exists (mkIter depth typ :: evs). split; [done|].
  constructor; [simpl; lia|done].
Qed.

(** A value whose only element is itself is iterated once at each of the
    depths 0 to 10, and no further. *)
Lemma try_iter_content_self fuel E v lv depth :
  py__iter__ E v = Some [lv] -> infer E lv = [v] ->
  11 - depth < fuel ->
  try_iter_content fuel E [v] depth
  = Some ((fun d => mkIter d v) <$> seq depth (11 - depth)).
Proof.
  intros Hiter Hinfer. revert depth.
  induction fuel as [|fuel IH]; intros depth Hf; [lia|].
  cbn [try_iter_content].
  destruct (10 <? depth) eqn:Hd.
  - apply Nat.ltb_lt in Hd. by replace (11 - depth) with 0 by lia.
  - apply Nat.ltb_ge in Hd. cbn [for_each]. rewrite Hiter. cbn [for_each].
    rewrite Hinfer, IH by lia. cbn.
    replace (11 - depth) with (S (11 - (depth + 1))) by lia.
    cbn. rewrite !app_nil_r. by replace (S depth) with (depth + 1) by lia.
Qed.

(** C7.  [try_iter_content] returns on every input: twelve nested calls
    are always enough (fewer when started deeper).  It iterates a value
    only at the depths 0 to 10; a call made at a depth above 10 returns at
    once, with nothing iterated and nothing raised.  On a value whose
    iteration gives the value itself, it iterates that value eleven times,
    once per depth, and returns. *)
Theorem try_iter_content_terminates :
  (forall fuel E types depth,
      11 - depth < fuel ->
      exists evs, try_iter_content fuel E types depth = Some evs
        /\ Forall (fun ev => depth <= iter_depth ev <= 10) evs)
  /\ (forall fuel E types depth,
      10 < depth -> try_iter_content (S fuel) E types depth = Some [])
  /\ (forall E v lv,
      py__iter__ E v = Some [lv] -> infer E lv = [v] ->
      try_iter_content 12 E [v] 0 = Some ((fun d => mkIter d v) <$> seq 0 11)).
Proof.
  split; [|split].
  - apply try_iter_content_total.
  - intros fuel E types depth Hd. cbn [try_iter_content].
    by rewrite (proj2 (Nat.ltb_lt _ _) Hd).
  - intros E v lv Hiter Hinfer.
    apply (try_iter_content_self 12 E v lv 0 Hiter Hinfer). lia.
Qed.

Lemma try_iter_content_terminates_witness :
  (exists evs,
      try_iter_content 12 Demo.engine [InferredValue 4; InferredValue 1] 0 = Some evs
      /\ Forall (fun ev => 0 <= iter_depth ev <= 10) evs)
  /\ try_iter_content 12 Demo.engine [InferredValue 4] 0
     = Some ((fun d => mkIter d (InferredValue 4)) <$> seq 0 11).
Proof.
  destruct try_iter_content_terminates as (Htotal & _ & Hself). split.
  - apply Htotal. simpl. lia.
  - apply (Hself Demo.engine (InferredValue 4) (Demo.known 4)); reflexivity.
Defined.

(** ** Back-tracing call sites *)

(** Identities visited without repetition are no more than the heap holds. *)
Lemma visited_bounded (heap : Heap) (old : list ArgId) :
  NoDup old -> (forall x, x ∈ old -> is_Some (heap !! x)) ->
  length old <= size heap.
Proof.
  intros Hnd Hin. rewrite <- (size_dom heap).
  apply submseteq_length, NoDup_submseteq; [done|].
  intros x Hx. apply elem_of_elements, elem_of_dom. auto.
Qed.

Lemma calling_loop_fuel fuel E (heap : Heap) old arguments :
  NoDup old -> (forall x, x ∈ old -> is_Some (heap !! x)) ->
  size heap <= fuel + length old ->
  calling_loop fuel E heap old arguments <> OutOfFuel.
Proof.
  revert old arguments.
  induction fuel as [|fuel IH]; intros old a Hnd Hin Hsize.
  - simpl. case_bool_decide as Ha; [done|].
    destruct (heap !! a) as [[]|] eqn:Hh; try done.
    assert (length (old ++ [a]) <= size heap) as Hlen.
    { apply visited_bounded.
      - apply NoDup_app. split_and!; [done| |apply NoDup_singleton].
        intros x Hx ->%list_elem_of_singleton. done.
      - intros x [Hx| ->%list_elem_of_singleton]%elem_of_app; [auto|by eexists]. }
    rewrite length_app in Hlen. simpl in *. lia.
  - simpl. case_bool_decide as Ha; [done|].
    destruct (heap !! a) as [[self| | |]|] eqn:Hh; try done.
    assert (forall b, calling_loop fuel E heap (old ++ [a]) b <> OutOfFuel) as Hnext.
    { intros b. apply IH.
      - apply NoDup_app. split_and!; [done| |apply NoDup_singleton].
        intros x Hx ->%list_elem_of_singleton. done.
      - intros x [Hx| ->%list_elem_of_singleton]%elem_of_app; [auto|by eexists].
      - rewrite length_app. simpl. lia. }
    destruct (list_of_gen _) as [names|]; [|done].
    destruct (reverse names) as [|[c n] ?]; [done|].
    destruct (goto E c n) as [|[[|[va|]]|] [|]]; done.
Qed.

Lemma calling_loop_closed fuel E (heap : Heap) old arguments :
  closed E heap -> is_Some (heap !! arguments) ->
  calling_loop fuel E heap old arguments <> Dangling
  /\ forall x, calling_loop fuel E heap old arguments = Stopped x ->
               is_Some (heap !! x).
Proof.
  intros Hclosed. revert old arguments.
  induction fuel as [|fuel IH]; intros old a Ha; simpl.
  - case_bool_decide; [split; [done|by intros x [= <-]]|].
    destruct Ha as [obj Ha]. rewrite Ha.
    destruct obj; (split; [done|]); intros x [= <-]; by eexists.
  - case_bool_decide; [split; [done|by intros x [= <-]]|].
    pose proof Ha as [obj Hobj]. rewrite Hobj.
    destruct obj as [self| | |]; try (split; [done|]; intros x [= <-]; by eexists).
    destruct (list_of_gen _) as [names|]; [|done].
    destruct (reverse names) as [|[c n] ?]; [by apply IH|].
    destruct (goto E c n) as [|[[|[va|]]|] [|]] eqn:Hg; try done; try by apply IH.
    apply IH. by eapply Hclosed.
Qed.

(** C8.  [get_calling_nodes] returns on every heap of [Arguments] objects:
    as many rounds of its loop as the heap has objects are enough, because
    each round adds an identity that was not visited before.  If every
    forwarded identity is an object of the heap, the call ends by
    returning a list or by an exception of the tree walk.  On the chain of
    three forwarding call sites it returns the one call site at the head
    of the chain; on two call sites that forward to each other it returns
    the call site it started from. *)
Theorem get_calling_nodes_terminates :
  (forall fuel E (heap : Heap) self,
      size heap <= fuel -> get_calling_nodes fuel E heap self <> NoFuel)
  /\ (forall fuel E (heap : Heap) self,
      closed E heap -> is_Some (heap !! self) ->
      get_calling_nodes fuel E heap self <> DanglingReference)
  /\ get_calling_nodes (size Demo.heap) Demo.engine Demo.heap 1
     = Returns [mkContextualizedNode (Some 40)
                  (BaseNode "arglist" [Demo.name "x"; Demo.comma; Demo.name "y"])]
  /\ get_calling_nodes (size Demo.heap) Demo.engine Demo.heap 5
     = Returns [mkContextualizedNode (Some 50) (Demo.star (Demo.name "u"))].
Proof.
  split_and!.
  - intros fuel E heap self Hf. unfold get_calling_nodes.
    pose proof (calling_loop_fuel fuel E heap [] self) as H.
    destruct (calling_loop fuel E heap [] self) eqn:Hl; try done.
    + destruct (heap !! _); [|done]. by repeat case_match.
    + exfalso. apply H; [constructor|by intros x ?%elem_of_nil|simpl; lia|done].
  - intros fuel E heap self Hc Hs. unfold get_calling_nodes.
    destruct (calling_loop_closed fuel E heap [] self Hc Hs) as [Hd Hx].
    destruct (calling_loop fuel E heap [] self) eqn:Hl; try done.
    destruct (Hx _ eq_refl) as [obj ->]. by repeat case_match.
  - by vm_compute.
  - by vm_compute.
Qed.

Lemma get_calling_nodes_terminates_witness :
  get_calling_nodes 6 Demo.engine Demo.heap 5 <> NoFuel
  /\ get_calling_nodes 6 Demo.engine Demo.heap 1 <> DanglingReference.
Proof.
  destruct get_calling_nodes_terminates as (Hfuel & Hclosed & _). split.
  - apply Hfuel. vm_compute. lia.
  - apply Hclosed; [|vm_compute; by eexists].
    intros c n va. unfold goto, Demo.engine, Demo.demo_goto.
    repeat case_match; intros [= <-]; vm_compute; by eexists.
Defined.

(** ** Unpacking: the loop adds to its state *)

Lemma state_app_no_state st : state_app st no_state = st.
Proof. destruct st. unfold state_app. simpl. by rewrite !app_nil_r. Qed.

Lemma state_app_assoc st d1 d2 :
  state_app (state_app st d1) d2 = state_app st (state_app d1 d2).
Proof. unfold state_app. simpl. by rewrite !app_assoc. Qed.

Lemma do_yield_app es st d : do_yield es (state_app st d) = state_app st (do_yield es d).
Proof. unfold do_yield, state_app. simpl. by rewrite app_assoc. Qed.

Lemma do_report_app added st d :
  do_report added (state_app st d) = state_app st (do_report added d).
Proof. unfold do_report, state_app. simpl. by rewrite app_assoc. Qed.

Lemma do_buffer_app e st d : do_buffer e (state_app st d) = state_app st (do_buffer e d).
Proof. unfold do_buffer, state_app. simpl. by rewrite app_assoc. Qed.

Lemma star_star_fold_app E ctx funcdef el arrays st d :
  foldl (fun st dct =>
           let '(items, added) := _star_star_dict E ctx dct el funcdef in
           do_yield ((fun '(key, values) => (Some key, values)) <$> items)
             (do_report added st))
        (state_app st d) arrays
  = state_app st
      (foldl (fun st dct =>
                let '(items, added) := _star_star_dict E ctx dct el funcdef in
                do_yield ((fun '(key, values) => (Some key, values)) <$> items)
                  (do_report added st))
             d arrays).
Proof.
  revert d. induction arrays as [|a arrays IH]; intros d; [done|].
  simpl. destruct (_star_star_dict E ctx a el funcdef) as [items added].
  by rewrite do_report_app, do_yield_app, IH.
Qed.

(** One round of the loop, from any state, is the same round from the
    empty state put behind the state. *)
Lemma unpack_body_app E ctx funcdef st star_count el :
  unpack_body E ctx funcdef st star_count el
  = (d ← unpack_body E ctx funcdef no_state star_count el; Ok (state_app st d)).
Proof.
  unfold unpack_body.
  destruct (star_count =? 1).
  { simpl. by rewrite <- do_yield_app, <- do_report_app, state_app_no_state. }
  destruct (star_count =? 2).
  { simpl. by rewrite <- star_star_fold_app, state_app_no_state. }
  destruct (String.eqb (node_type el) "argument").
  2:{ simpl. by rewrite <- do_yield_app, state_app_no_state. }
  destruct (node_children el) as [c|]; [|done]. simpl.
  destruct (length c =? 3).
  - destruct (index c 0) as [c0|]; [|done]. simpl.
    destruct (node_value c0) as [name|]; [|done]. simpl.
    destruct (index c 2) as [c2|]; [|done]. simpl.
    by rewrite <- do_buffer_app, state_app_no_state.
  - destruct (index c 1) as [s1|]; [|done]. simpl.
    destruct (if String.eqb (node_type s1) "comp_for"
              then node_children s1 ≫= (fun cs => index cs 1)
              else Ok s1) as [s2|]; [|done]. simpl.
    destruct (index c 0) as [c0|]; [|done]. simpl.
    destruct (new_GeneratorComprehension ctx s2 c0) as [comp|]; [|done]. simpl.
    by rewrite <- do_yield_app, state_app_no_state.
Qed.

Lemma unpack_loop_app E ctx funcdef items st :
  unpack_loop E ctx funcdef items st
  = (state_app st (unpack_loop E ctx funcdef items no_state).1,
     (unpack_loop E ctx funcdef items no_state).2).
Proof.
  revert st. induction items as [|[star_count el] items IH]; intros st.
  { simpl. by rewrite state_app_no_state. }
  simpl. rewrite (unpack_body_app E ctx funcdef st).
  destruct (unpack_body E ctx funcdef no_state star_count el) as [d|e]; simpl.
  - rewrite (IH (state_app st d)), (IH d). simpl. by rewrite state_app_assoc.
  - by rewrite state_app_no_state.
Qed.

(** What a round adds to the buffer of keyword pairs is the keyword pair
    of its item, and a round that buffers yields nothing. *)
Lemma unpack_body_named E ctx funcdef star_count el d :
  unpack_body E ctx funcdef no_state star_count el = Ok d ->
  named_args d = option_list (keyword_pair ctx (star_count, el)).
Proof.
  unfold unpack_body, keyword_pair.
  destruct (star_count =? 1) eqn:H1.
  { intros [= <-]. simpl. repeat case_match; try done.
    by rewrite andb_false_r in *. }
  destruct (star_count =? 2) eqn:H2.
  { intros [= <-]. simpl.
    assert (forall arrays st, named_args st = [] ->
      named_args (foldl (fun st dct =>
           let '(items, added) := _star_star_dict E ctx dct el funcdef in
           do_yield ((fun '(key, values) => (Some key, values)) <$> items)
             (do_report added st)) st arrays) = []) as Hfold.
    { induction arrays as [|a arrays IH]; intros st Hst; [done|].
      simpl. apply IH. by destruct (_star_star_dict E ctx a el funcdef). }
    rewrite Hfold by done. repeat case_match; try done.
    by rewrite andb_false_r in *. }
  destruct el as [t v|t c]; simpl.
  { destruct (String.eqb t "argument"); [done|]. by intros [= <-]. }
  destruct (String.eqb t "argument"); simpl.
  2:{ intros [= <-]. simpl. by repeat case_match. }
  destruct (length c =? 3) eqn:Hlen.
  - apply Nat.eqb_eq in Hlen.
    destruct c as [|c0 [|c1 [|c2 [|]]]]; try done. simpl.
    destruct c0 as [t0 name|]; [|done]. simpl. by intros [= <-].
  - apply Nat.eqb_neq in Hlen. intros Hd.
    assert (named_args d = []) as ->.
    { destruct (index c 1) as [s1|]; [|done]. simpl in Hd.
      destruct (if String.eqb (node_type s1) "comp_for"
                then node_children s1 ≫= (fun cs => index cs 1)
                else Ok s1) as [s2|]; [|done]. simpl in Hd.
      destruct (index c 0) as [c0|]; [|done]. simpl in Hd.
      destruct (new_GeneratorComprehension ctx s2 c0) as [comp|]; [|done]. simpl in Hd.
      by injection Hd as <-. }
    by destruct c as [|[] [|c1 [|c2 [|]]]].
Qed.

Lemma keyword_pair_contribution E ctx funcdef item e :
  keyword_pair ctx item = Some e -> contribution E ctx funcdef item = [].
Proof.
  destruct item as [star_count el]. unfold keyword_pair, contribution, unpack_body.
  destruct el as [|t [|[t0 name|] [|c1 [|c2 [|]]]]]; try done.
  simpl. destruct (String.eqb t "argument") eqn:Ht; [|done].
  destruct (star_count =? 1); [done|]. by destruct (star_count =? 2).
Qed.

Lemma unpack_loop_yields E ctx funcdef items st :
  (unpack_loop E ctx funcdef items no_state).2 = None ->
  st = (unpack_loop E ctx funcdef items no_state).1 ->
  yielded st = flat_map (contribution E ctx funcdef) items
  /\ named_args st = omap (keyword_pair ctx) items.
Proof.
  revert st. induction items as [|[star_count el] items IH]; intros st He ->.
  { done. }
  change (omap (keyword_pair ctx) ((star_count, el) :: items))
    with (match keyword_pair ctx (star_count, el) with
          | Some y => y :: omap (keyword_pair ctx) items
          | None => omap (keyword_pair ctx) items
          end).
  pose proof (unpack_body_named E ctx funcdef star_count el) as Hnamed.
  set (kp := keyword_pair ctx (star_count, el)) in *. clearbody kp.
  simpl in *. unfold contribution at 1. simpl.
  destruct (unpack_body E ctx funcdef no_state star_count el) as [d|e]; [|done].
  rewrite unpack_loop_app in He |- *. simpl in *.
  destruct (IH _ He eq_refl) as [-> ->].
  rewrite (Hnamed d eq_refl).
  split; [done|]. by destruct kp.
Qed.

(** C1.  Whenever [unpack] runs to its end, what it yields is, in this
    order: for every item of the argument list, in source order, what the
    loop yields for it at once (positional values, the values of star and
    double-star expansions, generator comprehensions; nothing for a
    keyword pair), and then the keyword pairs of the argument list, in
    source order. *)
Theorem unpack_keywords_last E self funcdef :
  raised (stream (unpack E self funcdef)) = None ->
  let ctx := context self in
  let items := yields (unpack_arglist (argument_node self)) in
  yields (stream (unpack E self funcdef))
  = flat_map (contribution E ctx funcdef) items ++ omap (keyword_pair ctx) items
  /\ Forall (fun item => is_Some (keyword_pair ctx item) ->
                         contribution E ctx funcdef item = []) items.
Proof.
  intros Hr ctx items. split.
  - unfold unpack in *. fold items ctx in Hr |- *.
    pose proof (unpack_loop_yields E ctx funcdef items) as Hloop.
    change (mkState [] [] []) with no_state in *.
    destruct (unpack_loop E ctx funcdef items no_state) as [st e].
    destruct e as [e|]; [done|].
    destruct (raised (unpack_arglist (argument_node self))); [done|].
    simpl in *. by destruct (Hloop st eq_refl eq_refl) as [-> ->].
  - apply Forall_forall. intros item _ [e He].
    by eapply keyword_pair_contribution.
Qed.

Lemma unpack_keywords_last_witness :
  let arglist :=
    BaseNode "arglist"
      [Demo.keyword "x" (Demo.number "1"); Demo.comma; Demo.star (Demo.name "seq");
       Demo.comma; Demo.keyword "y" (Demo.number "2"); Demo.comma;
       Demo.star_star (Demo.name "d"); Demo.comma; Demo.number "3"] in
  yields (stream (unpack Demo.engine (Demo.call 7 arglist) None))
  = [(None, Demo.known 11); (None, Demo.known 12); (None, Demo.known 13);
     (Some "a", Demo.known 21); (Some "b", Demo.known 22);
     (None, LazyTreeValue 7 (Demo.number "3"));
     (Some "x", LazyTreeValue 7 (Demo.number "1"));
     (Some "y", LazyTreeValue 7 (Demo.number "2"))].
Proof.
  intros arglist.
  destruct (unpack_keywords_last Demo.engine (Demo.call 7 arglist) None) as [-> _].
  - vm_compute. reflexivity.
  - vm_compute. reflexivity.
Defined.

(** ** Plain positional arguments *)

Lemma unpack_children_plain children :
  Forall (fun c => node_eq_str c "," = true \/ plain_positional c) children ->
  unpack_children children
  = mkGen ((fun c => (0, c)) <$> filter (fun c => node_eq_str c "," = false) children)
          None.
Proof.
  induction 1 as [|c children [Hc|(Hc & Hs & Ht)] _ IH]; [done|..].
  - simpl. rewrite Hc, IH. rewrite filter_cons_False; [done|]. by rewrite Hc.
  - simpl. rewrite Hc, Hs, Ht, IH. by rewrite filter_cons_True.
Qed.

Lemma unpack_loop_plain E ctx funcdef exprs st :
  Forall plain_positional exprs ->
  unpack_loop E ctx funcdef ((fun c => (0, c)) <$> exprs) st
  = (do_yield ((fun e => (None, LazyTreeValue ctx e)) <$> exprs) st, None).
Proof.
  intros H. revert st. induction H as [|e exprs (_ & _ & Ht) _ IH]; intros st.
  - simpl. unfold do_yield. simpl. rewrite app_nil_r. by destruct st.
  - simpl. unfold unpack_body. simpl. rewrite Ht, IH.
    unfold do_yield. simpl. by rewrite <- app_assoc.
Qed.

(** X26.  For an argument list whose children are commas and expressions
    that are neither star tokens nor [argument] nodes, [unpack] yields one
    unnamed entry per expression, the lazy tree value of that expression,
    in source order, and nothing else; so it does when the argument node
    is one such expression by itself. *)
Theorem unpack_plain_positional :
  (forall E ctx trailer funcdef t children,
      t = "arglist" \/ t = "testlist" ->
      Forall (fun c => node_eq_str c "," = true \/ plain_positional c) children ->
      unpack E (mkTreeArguments ctx (Some (BaseNode t children)) trailer) funcdef
      = mkUnpacked
          (mkGen ((fun e => (None, LazyTreeValue ctx e))
                    <$> filter (fun c => node_eq_str c "," = false) children) None)
          [])
  /\ (forall E ctx trailer funcdef e,
      plain_positional e ->
      node_type e <> "arglist" -> node_type e <> "testlist" ->
      unpack E (mkTreeArguments ctx (Some e) trailer) funcdef
      = mkUnpacked (mkGen [(None, LazyTreeValue ctx e)] None) []).
Proof.
  split.
  - intros E ctx trailer funcdef t children Ht Hc.
    assert (unpack_arglist (Some (BaseNode t children)) = unpack_children children) as Hal.
    { by destruct Ht as [-> | ->]. }
    unfold unpack. cbn [argument_node context]. rewrite Hal.
    rewrite (unpack_children_plain _ Hc). cbn [yields raised].
    rewrite unpack_loop_plain.
    + unfold do_yield. simpl. by rewrite app_nil_r.
    + apply Forall_forall. intros c [Hcomma Hin]%list_elem_of_filter.
      rewrite Forall_forall in Hc. destruct (Hc c Hin) as [Hc'|Hc']; [congruence|done].
  - intros E ctx trailer funcdef e (Hc & Hs & Ht) Ha Hl.
    unfold unpack, unpack_arglist. cbn [argument_node context].
    apply String.eqb_neq in Ha, Hl. rewrite Ha, Hl, Ht. simpl.
    unfold unpack_body. simpl. by rewrite Ht.
Qed.

Lemma unpack_plain_positional_witness :
  unpack Demo.engine
    (Demo.call 7 (BaseNode "arglist" [Demo.name "x"; Demo.comma; Demo.number "2"]))
    None
  = mkUnpacked
      (mkGen [(None, LazyTreeValue 7 (Demo.name "x"));
              (None, LazyTreeValue 7 (Demo.number "2"))] None) []
  /\ unpack Demo.engine (Demo.call 7 (Demo.name "x")) None
     = mkUnpacked (mkGen [(None, LazyTreeValue 7 (Demo.name "x"))] None) [].
Proof.
  destruct unpack_plain_positional as [Hlist Hone]. split.
  - apply (Hlist Demo.engine 7 None None "arglist"
             [Demo.name "x"; Demo.comma; Demo.number "2"]); [by left|].
    constructor; [right; repeat split|].
    constructor; [left; reflexivity|].
    constructor; [right; repeat split|]. constructor.
  - apply (Hone Demo.engine 7 None None (Demo.name "x")); [repeat split|done..].
Defined.

(** C9.  A named expression passed as positional argument, as in
    [f(x := 1)]: the parser makes it an [argument] node of three children,
    as it does a keyword pair, and [unpack] tells a keyword pair by the
    number of children alone; the token in the middle is never looked at.
    So the value is yielded under the key [x], and the stream holds no
    unnamed entry for the expression. *)
Theorem unpack_named_expression_keyed :
  (forall E ctx trailer funcdef x token value,
      unpack E
        (mkTreeArguments ctx (Some (BaseNode "argument" [Demo.name x; token; value])) trailer)
        funcdef
      = mkUnpacked (mkGen [(Some x, LazyTreeValue ctx value)] None) [])
  /\ unpack Demo.engine (Demo.call 7 (Demo.named_expression "x" (Demo.number "1"))) None
     = mkUnpacked (mkGen [(Some "x", LazyTreeValue 7 (Demo.number "1"))] None) []
  /\ (forall lazy_value,
        yields (stream (unpack Demo.engine
                          (Demo.call 7 (Demo.named_expression "x" (Demo.number "1"))) None))
        <> [(None, lazy_value)]).
Proof.
  split_and!; [|reflexivity|by intros lazy_value [=]].
  intros E ctx trailer funcdef x token value. reflexivity.
Qed.

(** ** Star and double-star targets that cannot be expanded *)

Lemma zip_longest_empty {A} (iterators : list (list A)) :
  Forall (fun it => it = []) iterators -> zip_longest iterators = [].
Proof.
  intros H. unfold zip_longest.
  assert (foldr Nat.max 0 (length <$> iterators) = 0) as ->; [|done].
  induction H as [|it iterators -> _ IH]; [done|]. exact IH.
Qed.

Lemma star_args_lacking E ctx funcdef el arrays :
  Forall (lacks_iterable E) arrays ->
  Forall (fun it => it = [])
    (((fun a => _iterate_star_args E ctx a el funcdef) <$> arrays).*1)
  /\ concat (((fun a => _iterate_star_args E ctx a el funcdef) <$> arrays).*2)
     = flat_map (fun a => issues_if funcdef (fun f => star_issue ctx f a el)) arrays.
Proof.
  induction 1 as [|a arrays [Hattr Hiter] _ [IH1 IH2]]; [done|].
  simpl. unfold _iterate_star_args at 1 3. rewrite Hattr, Hiter. simpl.
  split; [by constructor|]. unfold issues_if at 1. f_equal. exact IH2.
Qed.

(** C2 (as amended).  A single-star argument all of whose inferred
    candidates lack the iterable capability adds no entry; it adds one
    [type-error-star] issue per candidate if [unpack] was given a callee
    definition, and no issue if it was not; the loop goes on with the
    remaining items.  For the call with that one argument, [unpack] yields
    nothing and ends normally. *)
Theorem star_target_not_iterable :
  (forall E ctx funcdef el items st,
      Forall (lacks_iterable E) (infer_node E ctx el) ->
      unpack_loop E ctx funcdef ((1, el) :: items) st
      = unpack_loop E ctx funcdef items
          (do_report
             (flat_map (fun a => issues_if funcdef (fun f => star_issue ctx f a el))
                       (infer_node E ctx el))
             st))
  /\ (forall E ctx trailer funcdef el array,
      infer_node E ctx el = [array] -> lacks_iterable E array ->
      unpack E (mkTreeArguments ctx
                  (Some (BaseNode "argument" [Leaf "operator" "*"; el])) trailer)
               funcdef
      = mkUnpacked (mkGen [] None)
                   (issues_if funcdef (fun f => star_issue ctx f array el))).
Proof.
  assert (forall E ctx funcdef el st,
      Forall (lacks_iterable E) (infer_node E ctx el) ->
      unpack_body E ctx funcdef st 1 el
      = Ok (do_report
              (flat_map (fun a => issues_if funcdef (fun f => star_issue ctx f a el))
                        (infer_node E ctx el)) st)) as Hbody.
  { intros E ctx funcdef el st H. unfold unpack_body. simpl.
    destruct (star_args_lacking E ctx funcdef el _ H) as [H1 ->].
    rewrite (zip_longest_empty _ H1). unfold do_yield. simpl.
    by rewrite app_nil_r. }
  split.
  - intros E ctx funcdef el items st H. cbn [unpack_loop]. by rewrite Hbody.
  - intros E ctx trailer funcdef el array Hinfer Hlack.
    assert (unpack_arglist (Some (BaseNode "argument" [Leaf "operator" "*"; el]))
            = mkGen [(1, el)] None) as Hal by reflexivity.
    unfold unpack. cbn [argument_node context]. rewrite Hal.
    cbn [yields raised unpack_loop].
    rewrite Hbody; rewrite Hinfer; [|by constructor].
    simpl. by rewrite app_nil_r.
Qed.

Lemma star_target_not_iterable_witness :
  unpack Demo.engine (Demo.call 7 (Demo.star (Demo.name "n"))) (Some (mkFuncdef "f"))
  = mkUnpacked (mkGen [] None)
      [star_issue 7 (mkFuncdef "f") (InferredValue 3) (Demo.name "n")].
Proof.
  destruct star_target_not_iterable as [_ H].
  apply (H Demo.engine 7 None (Some (mkFuncdef "f")) (Demo.name "n") (InferredValue 3)).
  - reflexivity.
  - split; reflexivity.
Defined.

(** C2, counterexample.  [unpack] called without a callee definition, on
    a call whose one argument is [*n] with [n] an integer: the integer has
    no iterable capability, and yet no issue is reported. *)
Lemma star_target_no_funcdef_silent :
  infer_node Demo.engine 7 (Demo.name "n") = [InferredValue 3]
  /\ lacks_iterable Demo.engine (InferredValue 3)
  /\ unpack Demo.engine (Demo.call 7 (Demo.star (Demo.name "n"))) None
     = mkUnpacked (mkGen [] None) []
  /\ length (issues (unpack Demo.engine (Demo.call 7 (Demo.star (Demo.name "n"))) None))
     <> 1.
Proof. split_and!; by vm_compute. Qed.

Lemma star_star_fold_flat E ctx funcdef el arrays d :
  foldl (fun st dct =>
           let '(items, added) := _star_star_dict E ctx dct el funcdef in
           do_yield ((fun '(key, values) => (Some key, values)) <$> items)
             (do_report added st))
        d arrays
  = state_app d
      (mkState
         (flat_map (fun dct => (fun '(key, values) => (Some key, values))
                                 <$> (_star_star_dict E ctx dct el funcdef).1) arrays)
         []
         (flat_map (fun dct => (_star_star_dict E ctx dct el funcdef).2) arrays)).
Proof.
  revert d. induction arrays as [|a arrays IH]; intros d.
  { simpl. symmetry. apply (state_app_no_state d). }
  cbn [foldl flat_map]. rewrite IH.
  destruct (_star_star_dict E ctx a el funcdef) as [items added]. simpl.
  unfold state_app, do_yield, do_report. simpl. by rewrite !app_assoc.
Qed.

(** C3 (as amended).  A double-star argument: every inferred candidate is
    handled on its own, and what the candidates contribute is put
    together in their order, after which the loop goes on with the
    remaining items.  A candidate that is a dict literal (a [Sequence] of
    array type [dict] that is not a native instance) adds one keyed entry
    per item of [exact_key_items], in their order; an instance of the
    native [dict] adds nothing and no issue; any other candidate adds no
    entry, and one [type-error-star-star] issue if [unpack] was given a
    callee definition, none if it was not.  Every candidate is of exactly
    one of the three kinds. *)
Theorem star_star_target E ctx funcdef el items st :
  let candidate array := _star_star_dict E ctx array el funcdef in
  unpack_loop E ctx funcdef ((2, el) :: items) st
  = unpack_loop E ctx funcdef items
      (state_app st
         (mkState
            (flat_map (fun array => (fun '(key, values) => (Some key, values))
                                      <$> (candidate array).1)
                      (infer_node E ctx el))
            []
            (flat_map (fun array => (candidate array).2) (infer_node E ctx el))))
  /\ (forall array,
        (dict_literal E array = true ->
         candidate array = (exact_key_items E array, []))
        /\ (native_dict E array = true -> candidate array = ([], []))
        /\ (no_mapping E array = true ->
            candidate array
            = ([], issues_if funcdef (fun f => star_star_issue ctx f array el)))
        /\ (dict_literal E array = true /\ native_dict E array = false
                /\ no_mapping E array = false
            \/ dict_literal E array = false /\ native_dict E array = true
                /\ no_mapping E array = false
            \/ dict_literal E array = false /\ native_dict E array = false
                /\ no_mapping E array = true)).
Proof.
  intros candidate. split.
  - cbn [unpack_loop]. unfold unpack_body. simpl. by rewrite star_star_fold_flat.
  - intros array. unfold candidate, _star_star_dict, no_mapping, dict_literal, native_dict.
    destruct (is_CompiledInstance E array && String.eqb (string_name E array) "dict");
      destruct (is_Sequence E array && String.eqb (array_type E array) "dict") eqn:Hs;
      simpl; rewrite ?Hs; simpl; split_and!; try done; auto.
Qed.

Lemma star_star_target_witness :
  infer_node Demo.union_engine 7 (Demo.name "either")
  = [InferredValue 2; InferredValue 6; InferredValue 3]
  /\ unpack_loop Demo.union_engine 7 (Some (mkFuncdef "f")) [(2, Demo.name "either")] no_state
     = (mkState [(Some "a", Demo.known 21); (Some "b", Demo.known 22)] []
          [star_star_issue 7 (mkFuncdef "f") (InferredValue 3) (Demo.name "either")],
        None).
Proof.
  split; [reflexivity|].
  exact (eq_trans
           (proj1 (star_star_target Demo.union_engine 7 (Some (mkFuncdef "f"))
                     (Demo.name "either") [] no_state))
           eq_refl).
Defined.

(** C3, counterexample.  [unpack] called without a callee definition, on
    a call whose one argument is [**n] with [n] an integer: the integer is
    no mapping of either kind, and yet no issue is reported. *)
Lemma star_star_target_no_funcdef_silent :
  infer_node Demo.engine 7 (Demo.name "n") = [InferredValue 3]
  /\ no_mapping Demo.engine (InferredValue 3) = true
  /\ unpack Demo.engine (Demo.call 7 (Demo.star_star (Demo.name "n"))) None
     = mkUnpacked (mkGen [] None) []
  /\ length (issues (unpack Demo.engine (Demo.call 7 (Demo.star_star (Demo.name "n")))
                       None))
     <> 1.
Proof. split_and!; by vm_compute. Qed.

(** ** Issues are reported only for a known callee *)

Lemma star_args_no_funcdef E ctx funcdef el arrays :
  ((fun a => _iterate_star_args E ctx a el None) <$> arrays).*1
  = ((fun a => _iterate_star_args E ctx a el funcdef) <$> arrays).*1
  /\ concat (((fun a => _iterate_star_args E ctx a el None) <$> arrays).*2) = [].
Proof.
  induction arrays as [|a arrays [IH1 IH2]]; [done|].
  rewrite !fmap_cons. cbn [concat]. rewrite IH1, IH2. unfold _iterate_star_args.
  destruct (py__getattribute__ E a "__iter__"), (py__iter__ E a); done.
Qed.

Lemma star_star_fold_quiet E ctx funcdef el arrays d :
  foldl (fun st dct =>
           let '(items, added) := _star_star_dict E ctx dct el None in
           do_yield ((fun '(key, values) => (Some key, values)) <$> items)
             (do_report added st))
        (quiet d) arrays
  = quiet
      (foldl (fun st dct =>
                let '(items, added) := _star_star_dict E ctx dct el funcdef in
                do_yield ((fun '(key, values) => (Some key, values)) <$> items)
                  (do_report added st))
             d arrays).
Proof.
  revert d. induction arrays as [|a arrays IH]; intros d; [done|].
  cbn [foldl]. rewrite <- IH. f_equal. unfold _star_star_dict.
  repeat case_match; simplify_eq; unfold quiet, do_yield, do_report; simpl;
    by rewrite ?app_nil_r.
Qed.

Lemma unpack_body_quiet E ctx funcdef star_count el :
  unpack_body E ctx None no_state star_count el
  = (d ← unpack_body E ctx funcdef no_state star_count el; Ok (quiet d)).
Proof.
  unfold unpack_body.
  destruct (star_count =? 1).
  { destruct (star_args_no_funcdef E ctx funcdef el (infer_node E ctx el)) as [-> ->].
    done. }
  destruct (star_count =? 2).
  { simpl. f_equal. apply (star_star_fold_quiet E ctx funcdef el _ no_state). }
  destruct (String.eqb (node_type el) "argument"); [|done].
  destruct (node_children el) as [c|]; [|done]. simpl.
  destruct (length c =? 3).
  - destruct (index c 0) as [c0|]; [|done]. simpl.
    destruct (node_value c0) as [name|]; [|done]. simpl.
    by destruct (index c 2).
  - destruct (index c 1) as [s1|]; [|done]. simpl.
    destruct (if String.eqb (node_type s1) "comp_for"
              then node_children s1 ≫= (fun cs => index cs 1)
              else Ok s1) as [s2|]; [|done]. simpl.
    destruct (index c 0) as [c0|]; [|done]. simpl.
    by destruct (new_GeneratorComprehension ctx s2 c0).
Qed.

Lemma quiet_state_app st d : quiet (state_app st d) = state_app (quiet st) (quiet d).
Proof. done. Qed.

Lemma unpack_loop_quiet E ctx funcdef items :
  unpack_loop E ctx None items no_state
  = (quiet (unpack_loop E ctx funcdef items no_state).1,
     (unpack_loop E ctx funcdef items no_state).2).
Proof.
  induction items as [|[star_count el] items IH]; [done|].
  cbn [unpack_loop]. rewrite (unpack_body_quiet E ctx funcdef).
  destruct (unpack_body E ctx funcdef no_state star_count el) as [d|e]; [|done].
  simpl. rewrite (unpack_loop_app _ _ _ _ (quiet d)), (unpack_loop_app _ _ _ _ d), IH.
  done.
Qed.

Lemma unpack_no_funcdef_silent E self funcdef :
  issues (unpack E self None) = []
  /\ stream (unpack E self None) = stream (unpack E self funcdef).
Proof.
  unfold unpack. change (mkState [] [] []) with no_state.
  rewrite (unpack_loop_quiet E (context self) funcdef).
  destruct (unpack_loop E (context self) funcdef _ no_state) as [st e]. simpl.
  destruct e; [done|]. by destruct (raised _).
Qed.

(** C10.  Called without a callee definition, [unpack] reports no issue
    at all, and yields exactly what it yields when called with one: a star
    target that is not iterable, or a double-star target that is no
    mapping, still adds no entry.  The two helpers add their issue exactly
    when they are given a callee definition. *)
Theorem issues_need_funcdef :
  (forall E self, issues (unpack E self None) = [])
  /\ (forall E self funcdef,
      stream (unpack E self funcdef) = stream (unpack E self None))
  /\ (forall E ctx array input_node funcdef,
      lacks_iterable E array ->
      _iterate_star_args E ctx array input_node funcdef
      = ([], issues_if funcdef (fun f => star_issue ctx f array input_node)))
  /\ (forall E ctx array input_node funcdef,
      no_mapping E array = true ->
      _star_star_dict E ctx array input_node funcdef
      = ([], issues_if funcdef (fun f => star_star_issue ctx f array input_node))).
Proof.
  split_and!.
  - intros E self. apply (unpack_no_funcdef_silent E self None).
  - intros E self funcdef. symmetry. apply unpack_no_funcdef_silent.
  - intros E ctx array n funcdef [Hattr Hiter]. unfold _iterate_star_args.
    by rewrite Hattr, Hiter.
  - intros E ctx array n funcdef H. unfold _star_star_dict.
    unfold no_mapping, native_dict in H.
    apply andb_prop in H as [Hn%negb_true_iff Hs%negb_true_iff].
    by rewrite Hn, Hs.
Qed.

Lemma issues_need_funcdef_witness :
  _iterate_star_args Demo.engine 7 (InferredValue 3) (Demo.name "n") None = ([], [])
  /\ _iterate_star_args Demo.engine 7 (InferredValue 3) (Demo.name "n")
       (Some (mkFuncdef "f"))
     = ([], [star_issue 7 (mkFuncdef "f") (InferredValue 3) (Demo.name "n")])
  /\ _star_star_dict Demo.engine 7 (InferredValue 3) (Demo.name "n") None = ([], [])
  /\ _star_star_dict Demo.engine 7 (InferredValue 3) (Demo.name "n") (Some (mkFuncdef "f"))
     = ([], [star_star_issue 7 (mkFuncdef "f") (InferredValue 3) (Demo.name "n")]).
Proof.
  destruct issues_need_funcdef as (_ & _ & Hstar & Hdict). split_and!.
  - apply (Hstar Demo.engine 7 (InferredValue 3) (Demo.name "n") None).
    split; reflexivity.
  - apply (Hstar Demo.engine 7 (InferredValue 3) (Demo.name "n") (Some (mkFuncdef "f"))).
    split; reflexivity.
  - apply (Hdict Demo.engine 7 (InferredValue 3) (Demo.name "n") None). reflexivity.
  - apply (Hdict Demo.engine 7 (InferredValue 3) (Demo.name "n") (Some (mkFuncdef "f"))).
    reflexivity.
Defined.

(** * Further properties *)

(** ** The clinic parser: how it ends and what it names *)

Lemma parse_loop_raises fuel allow_kwargs optional s g :
  parse_loop fuel allow_kwargs optional s = Some g ->
  raised g = None \/ raised g = Some AttributeError.
Proof.
  revert allow_kwargs optional s g.
  induction fuel as [|fuel IH]; intros a o s g H; [done|].
  destruct s as [|ch s]; [injection H as <-; by left|].
  cbn [parse_loop] in H.
  destruct (Re.re_match clinic_re (String ch s)) as [m|];
    [|injection H as <-; by right].
  destruct (negb _); [by eapply IH|].
  apply fmap_Some in H as (g' & Hg' & ->). simpl. by eapply IH.
Qed.

(** X1.  Parsing a clinic string always comes to an end, whatever the
    string: it either yields all its parameters, or stops at the first
    place where the pattern matches nothing, with an [AttributeError]
    (from [match.group] on [None]) and no other exception. *)
Theorem parse_clinic_ends s :
  exists g, _parse_argument_clinic s = Some g
    /\ (raised g = None \/ raised g = Some AttributeError).
Proof.
  destruct (parse_loop_fuel (S (String.length s)) false false s) as [g Hg]; [lia|].
  exists g. split; [done|]. by eapply parse_loop_raises.
Qed.

Lemma string_app_cons x (a b : string) : String x a +:+ b = String x (a +:+ b).
Proof. reflexivity. Qed.

Lemma string_app_assoc (a b c : string) : (a +:+ b) +:+ c = a +:+ (b +:+ c).
Proof. induction a as [|x a IH]; [done|]. by rewrite !string_app_cons, IH. Qed.

Lemma string_app_length (a b : string) :
  String.length (a +:+ b) = String.length a + String.length b.
Proof.
  induction a as [|x a IH]; [done|]. rewrite string_app_cons. simpl. by rewrite IH.
Qed.

Lemma substring_app (w s : string) : substring 0 (String.length w) (w +:+ s) = w.
Proof.
  induction w as [|x w IH].
  - by destruct s.
  - rewrite string_app_cons. simpl. by rewrite IH.
Qed.

Lemma consumed_app (w s : string) : Re.consumed (w +:+ s) s = w.
Proof.
  unfold Re.consumed. rewrite string_app_length.
  replace (String.length w + String.length s - String.length s)
    with (String.length w) by lia.
  apply substring_app.
Qed.

Lemma star_sound {R} p s (k : string -> option R) x :
  Re.star p s k = Some x ->
  exists w s', s = w +:+ s' /\ string_all p w = true /\ k s' = Some x.
Proof.
  revert k x. induction s as [|a s IH]; intros k x H; simpl in H.
  - by exists EmptyString, EmptyString.
  - destruct (p a) eqn:Hp; [|by exists EmptyString, (String a s)].
    destruct (Re.star p s k) as [y|] eqn:Hs; [|by exists EmptyString, (String a s)].
    injection H as ->. apply IH in Hs as (w & s' & -> & Hw & Hk).
    exists (String a w), s'. simpl. by rewrite Hp.
Qed.

(** What [run] finds is a prefix the pattern stands for, and the groups it
    has set hold text of their own sub-patterns. *)
Lemma run_sound {R} good r s c (k : string -> Re.captures -> option R) x :
  groups_capture good r -> captures_are good c ->
  Re.run r s c k = Some x ->
  exists w s' c', s = w +:+ s' /\ denotes r w /\ captures_are good c'
                  /\ k s' c' = Some x.
Proof.
  revert s c k x.
  induction r as [|p|r1 IH1 r2 IH2|r1 IH1 r2 IH2|r1 IH1|p|n r1 IH1];
    intros s c k x Hg Hc H; simpl in H.
  - by exists EmptyString, s, c.
  - destruct s as [|a s]; [done|]. destruct (p a) eqn:Hp; [|done].
    exists (String a EmptyString), s, c. split_and!; [done| |done..].
    by exists a.
  - destruct Hg as [Hg1 Hg2].
    apply IH1 in H as (w1 & s1 & c1 & -> & Hw1 & Hc1 & H); [|done..].
    apply IH2 in H as (w2 & s2 & c2 & -> & Hw2 & Hc2 & H); [|done..].
    exists (w1 +:+ w2), s2, c2. split_and!; [by rewrite string_app_assoc| |done..].
    by exists w1, w2.
  - destruct Hg as [Hg1 Hg2].
    destruct (Re.run r1 s c k) as [y|] eqn:H1.
    + injection H as ->.
      apply IH1 in H1 as (w & s' & c' & -> & Hw & Hc' & H); [|done..].
      exists w, s', c'. split_and!; [done| |done..]. by left.
    + apply IH2 in H as (w & s' & c' & -> & Hw & Hc' & H); [|done..].
      exists w, s', c'. split_and!; [done| |done..]. by right.
  - destruct (Re.run r1 s c k) as [y|] eqn:H1.
    + injection H as ->.
      apply IH1 in H1 as (w & s' & c' & -> & Hw & Hc' & H); [|done..].
      exists w, s', c'. split_and!; [done| |done..]. by right.
    + exists EmptyString, s, c. split_and!; [done| |done..]. by left.
  - apply star_sound in H as (w & s' & -> & Hw & H). by exists w, s', c.
  - destruct Hg as [Hg1 Hgood].
    apply IH1 in H as (w & s' & c' & -> & Hw & Hc' & H); [|done..].
    rewrite consumed_app in H.
    exists w, s', (Re.capture n w c'). split_and!; [done..| |done].
    intros m g. unfold Re.capture. destruct (Nat.eqb_spec m n) as [->|Hne].
    + intros [= <-]. by apply Hgood.
    + apply Hc'.
Qed.

Lemma string_all_app p (a b : string) :
  string_all p (a +:+ b) = string_all p a && string_all p b.
Proof.
  induction a as [|x a IH]; [done|]. rewrite string_app_cons. simpl.
  by rewrite IH, andb_assoc.
Qed.

Lemma clinic_re_groups : groups_capture clinic_group clinic_re.
Proof.
  unfold clinic_re, Re.Chr, Re.Plus. cbn [groups_capture denotes].
  split_and!; try done.
  - intros w (a & -> & Ha). apply Ascii.eqb_eq in Ha. by subst a.
  - intros w (stars & word & -> & Hstars & (w1 & w2 & -> & (a & -> & Ha) & Hw2)).
    exists stars, (String a w2). split_and!; [done..|].
    cbn [identifier string_all]. by rewrite Ha.
Qed.

Lemma clinic_match_groups s m :
  Re.re_match clinic_re s = Some m -> captures_are clinic_group (Re.group m).
Proof.
  intros H. unfold Re.re_match in H.
  apply (run_sound clinic_group) in H as (w & s' & c' & -> & _ & Hc & [= <-]);
    [done|apply clinic_re_groups|done].
Qed.

(** Counting and dropping the stars of a captured word gives back how many
    stars were written and the name behind them. *)
Lemma stars_then_word stars word :
  string_all (is_char "*") stars = true -> identifier word = true ->
  count_char "*" (stars +:+ word) = String.length stars
  /\ string_drop (String.length stars) (stars +:+ word) = word.
Proof.
  intros Hs Hw. induction stars as [|a stars IH].
  - split; [|by destruct word]. change (count_char "*" word = 0).
    assert (forall w, string_all is_word w = true -> count_char "*" w = 0) as Hc.
    { induction w as [|b w IHw]; [done|]. cbn [string_all count_char].
      intros [Hb Hw']%andb_prop. rewrite IHw by done.
      destruct (Ascii.eqb_spec b "*") as [->|]; [by vm_compute in Hb|done]. }
    apply Hc. by destruct word.
  - cbn [string_all] in Hs. apply andb_prop in Hs as [Ha Hs]. unfold is_char in Ha.
    apply Ascii.eqb_eq in Ha. subst a. destruct (IH Hs) as [IH1 IH2].
    rewrite string_app_cons. cbn [count_char String.length string_drop].
    by rewrite Ascii.eqb_refl, IH1, IH2.
Qed.

Lemma parse_loop_names fuel allow_kwargs optional s g :
  parse_loop fuel allow_kwargs optional s = Some g ->
  Forall (fun p => identifier (p_name p) = true) (yields g).
Proof.
  revert allow_kwargs optional s g.
  induction fuel as [|fuel IH]; intros a o s g H; [done|].
  destruct s as [|ch s]; [by injection H as <-|].
  cbn [parse_loop] in H.
  destruct (Re.re_match clinic_re (String ch s)) as [m|] eqn:Hm;
    [|by injection H as <-].
  destruct (str_truthy (Re.group m 2)) eqn:H2; simpl in H; [|by eapply IH].
  apply fmap_Some in H as (g' & Hg' & ->).
  constructor; [|by eapply IH]. simpl.
  destruct (Re.group m 2) as [w|] eqn:Hw; [|done].
  apply clinic_match_groups in Hm.
  destruct (Hm 2 w Hw) as (stars & word & -> & Hstars & Hword). simpl.
  by destruct (stars_then_word stars word Hstars Hword) as [-> ->].
Qed.

(** X2.  Every parameter the parser yields has a name that is a non-empty
    string of word characters: no bracket, comma, blank, slash or star
    ever ends up in a name, also in the parameters yielded before a
    failure. *)
Theorem parse_clinic_names s g :
  _parse_argument_clinic s = Some g ->
  Forall (fun p => identifier (p_name p) = true) (yields g).
Proof. apply parse_loop_names. Qed.

Lemma parse_clinic_names_witness :
  Forall (fun p => identifier (p_name p) = true)
    [mkParam "string" false false 0; mkParam "args" false true 1;
     mkParam "kwargs" false true 2].
Proof.
  apply (parse_clinic_names "string, /, *args, **kwargs"
           (mkGen [mkParam "string" false false 0; mkParam "args" false true 1;
                   mkParam "kwargs" false true 2] None)).
  vm_compute. reflexivity.
Defined.

(** ** The clinic matcher: arity, star parameters, keywords *)

Lemma collect_unnamed_spec ls rest r acc :
  match rest with
  | [] => r = None
  | (key, _) :: _ => is_Some key
  end ->
  collect_unnamed (((fun a => (None, a)) <$> ls) ++ rest) r acc
  = Ok (acc ++ ls, mkGen rest (match rest with [] => None | _ => r end)).
Proof.
  intros Hrest. revert acc. induction ls as [|a ls IH]; intros acc.
  - rewrite app_nil_r. simpl. destruct rest as [|[[k|] a] rest]; simpl in *.
    + by subst r.
    + done.
    + by destruct Hrest.
  - rewrite fmap_cons. cbn [app collect_unnamed]. by rewrite IH, <- app_assoc.
Qed.

(** X3.  A [*] parameter takes every unnamed entry up to the first keyed
    one into one tuple and leaves the keyed entry, and all behind it, to
    the parameters that follow; on a stream of unnamed entries only it
    takes them all. *)
Theorem clinic_star_parameter E p ps ls :
  p_stars p = 1 ->
  (forall k a rest r,
      clinic_loop E (p :: ps)
        (mkGen (((fun a => (None, a)) <$> ls) ++ (Some k, a) :: rest) r)
      = gen_yield [FakeSequence "tuple" ls]
          (clinic_loop E ps (mkGen ((Some k, a) :: rest) r)))
  /\ clinic_loop E (p :: ps) (mkGen ((fun a => (None, a)) <$> ls) None)
     = gen_yield [FakeSequence "tuple" ls] (clinic_loop E ps (mkGen [] None)).
Proof.
  intros Hp. split.
  - intros k a rest r. cbn [clinic_loop yields raised]. rewrite Hp. simpl.
    by rewrite (collect_unnamed_spec ls ((Some k, a) :: rest) r []).
  - cbn [clinic_loop yields raised]. rewrite Hp. simpl.
    pose proof (collect_unnamed_spec ls [] None [] eq_refl) as H.
    rewrite app_nil_r in H. by rewrite H.
Qed.

Lemma clinic_star_parameter_witness :
  clinic_loop Demo.engine [mkParam "args" false true 1; mkParam "sep" true true 0]
    (mkGen [(None, Demo.known 1); (None, Demo.known 3); (Some "sep", Demo.known 3)] None)
  = mkGen [[FakeSequence "tuple" [Demo.known 1; Demo.known 3]]] (Some ParamIssue).
Proof.
  destruct (clinic_star_parameter Demo.engine (mkParam "args" false true 1)
              [mkParam "sep" true true 0] [Demo.known 1; Demo.known 3] eq_refl)
    as [H _].
  exact (eq_trans (H "sep" (Demo.known 3) [] None) eq_refl).
Defined.

Lemma clinic_loop_plain_step E p ps key argument l r :
  plain_parameter p ->
  clinic_loop E (p :: ps) (mkGen ((key, argument) :: l) r)
  = if bool_decide (is_Some key) then gen_raise ParamIssue
    else if bool_decide (infer E argument = []) && negb (p_optional p)
         then gen_raise ParamIssue
         else gen_yield (infer E argument) (clinic_loop E ps (mkGen l r)).
Proof.
  intros [H1 H2]. cbn [clinic_loop].
  rewrite (proj2 (Nat.eqb_neq _ _) H1), (proj2 (Nat.eqb_neq _ _) H2). simpl.
  by destruct key.
Qed.

(** X4.  Keyword arguments are not matched in clinic mode: against plain
    parameters only, a keyed entry among the first entries, as many as
    there are parameters, always ends the matching with [ParamIssue]. *)
Theorem clinic_keyword_unsupported E ps l r i k a :
  Forall plain_parameter ps ->
  l !! i = Some (Some k, a) -> i < length ps ->
  raised (clinic_loop E ps (mkGen l r)) = Some ParamIssue.
Proof.
  intros Hps. revert l i. induction Hps as [|p ps Hp _ IH]; intros l i Hl Hi.
  { simpl in Hi. lia. }
  destruct l as [|[key argument] l]; [done|].
  rewrite clinic_loop_plain_step by done.
  destruct key as [k'|]; [done|]. simpl.
  destruct (bool_decide (infer E argument = []) && negb (p_optional p)); [done|].
  destruct i as [|i]; [done|]. simpl in *. apply (IH l i); [done|lia].
Qed.

Lemma clinic_keyword_unsupported_witness :
  raised (clinic_loop Demo.engine
            [mkParam "object" false false 0; mkParam "name" false false 0]
            (mkGen [(None, Demo.known 1); (Some "name", Demo.known 3)] None))
  = Some ParamIssue.
Proof.
  apply (clinic_keyword_unsupported Demo.engine _ _ None 1 "name" (Demo.known 3)).
  - repeat constructor; simpl; lia.
  - reflexivity.
  - simpl. lia.
Defined.

(** X5.  Against plain parameters, a stream that starts with one unnamed
    entry per parameter, each with values unless its parameter is
    optional, gives the value sets of these entries, in order, and ends
    normally; whatever else the stream holds is not asked for. *)
Theorem clinic_plain_match E ps ls rest r :
  Forall plain_parameter ps ->
  Forall2 (fun p a => p_optional p = true \/ infer E a <> []) ps ls ->
  clinic_loop E ps (mkGen (((fun a => (None, a)) <$> ls) ++ rest) r)
  = mkGen (infer E <$> ls) None.
Proof.
  intros Hps H. induction H as [|p a ps ls Hpa _ IH]; [done|].
  apply Forall_cons_1 in Hps as [Hp Hps].
  rewrite fmap_cons. cbn [app]. rewrite clinic_loop_plain_step by done.
  unfold Entry, PushBackIterator in *. rewrite IH by done. simpl.
  destruct Hpa as [-> | Ha]; [by rewrite andb_false_r|].
  by rewrite bool_decide_eq_false_2.
Qed.

Lemma clinic_plain_match_witness :
  clinic_loop Demo.engine
    [mkParam "object" false false 0; mkParam "default" true false 0]
    (mkGen [(None, Demo.known 1); (None, MergedLazyValues []); (None, Demo.known 3)] None)
  = mkGen [[InferredValue 1]; []] None.
Proof.
  apply (clinic_plain_match Demo.engine
           [mkParam "object" false false 0; mkParam "default" true false 0]
           [Demo.known 1; MergedLazyValues []] [(None, Demo.known 3)] None).
  - repeat constructor; simpl; lia.
  - constructor; [by right|]. constructor; [by left|]. constructor.
Defined.

(** X6.  When the stream runs out, every remaining plain parameter that is
    optional gets the empty value set, and the matching ends normally;
    the first remaining parameter that is not optional ends it with
    [ParamIssue]. *)
Theorem clinic_missing_arguments E ps :
  Forall plain_parameter ps ->
  clinic_loop E ps (mkGen [] None)
  = match list_find (fun p => p_optional p = false) ps with
    | None => mkGen (replicate (length ps) NO_VALUES) None
    | Some (i, _) => mkGen (replicate i NO_VALUES) (Some ParamIssue)
    end.
Proof.
  induction 1 as [|p ps [H1 H2] _ IH]; [done|].
  cbn [clinic_loop list_find].
  rewrite (proj2 (Nat.eqb_neq _ _) H1), (proj2 (Nat.eqb_neq _ _) H2). simpl.
  rewrite IH. destruct (p_optional p) eqn:Ho; simpl.
  - by destruct (list_find _ ps) as [[i q]|].
  - done.
Qed.

Lemma clinic_missing_arguments_witness :
  clinic_loop Demo.engine
    [mkParam "a" true false 0; mkParam "b" true false 0; mkParam "c" false false 0]
    (mkGen [] None)
  = mkGen [NO_VALUES; NO_VALUES] (Some ParamIssue).
Proof.
  rewrite clinic_missing_arguments; [reflexivity|].
  repeat constructor; simpl; lia.
Defined.

Lemma clinic_loop_count E ps it :
  match raised (clinic_loop E ps it) with
  | None => length (yields (clinic_loop E ps it)) = length ps
  | Some _ => length (yields (clinic_loop E ps it)) < length ps
  end.
Proof.
  revert it. induction ps as [|p ps IH]; intros it; [done|].
  cbn [clinic_loop]. unfold ValueSet in *.
  destruct (p_stars p =? 1).
  { destruct (collect_unnamed _ _ _) as [[lv it']|e]; simpl; [|lia].
    specialize (IH it'). revert IH. destruct (raised _); lia. }
  destruct (p_stars p =? 2); [simpl; lia|].
  destruct (pb_next it) as [nxt|e]; [|simpl; lia].
  destruct nxt as [[[key argument] it']|]; simpl.
  - destruct (bool_decide (is_Some key)); [simpl; lia|].
    destruct (_ && _); simpl; [lia|].
    specialize (IH it'). revert IH. destruct (raised _); lia.
  - destruct (negb (p_optional p)); simpl; [lia|].
    specialize (IH it). revert IH. destruct (raised _); lia.
Qed.

(** X7.  When the call of [unpack] itself raises (the variants without an
    [unpack] of their own), matching yields nothing and raises that
    exception, also against an empty parameter list.  Otherwise it yields
    one value set per clinic parameter when it ends normally, and fewer
    than there are parameters when it raises. *)
Theorem clinic_one_value_set_per_parameter E arguments parameters :
  let g := _iterate_argument_clinic E arguments parameters in
  match call_unpack E arguments None with
  | Raise e => g = gen_raise e
  | Ok _ =>
      match raised g with
      | None => length (yields g) = length parameters
      | Some _ => length (yields g) < length parameters
      end
  end.
Proof.
  unfold _iterate_argument_clinic.
  destruct (call_unpack E arguments None) as [unpacked|e]; [|done].
  apply clinic_loop_count.
Qed.

(** ** Walking the argument list: star counts, exceptions, well-shaped trees *)

(** Induction over the children as [unpack_children] goes through them:
    one child at a time, or a star token together with its target. *)
Lemma children_ind (P : list Node -> Prop) :
  P [] ->
  (forall c rest,
      P rest -> (forall el rest', rest = el :: rest' -> P rest') -> P (c :: rest)) ->
  forall cs, P cs.
Proof.
  intros Hnil Hcons cs.
  assert (P cs /\ forall c, P (c :: cs)) as [H _]; [|done].
  induction cs as [|el rest' [IH1 IH2]].
  - split; [done|]. intros c. apply Hcons; [done|]. by intros ? ? [=].
  - split; [apply IH2|]. intros c. apply Hcons; [apply IH2|].
    by intros ? ? [= <- <-].
Qed.

Lemma is_star_token_leaf n :
  is_star_token n = true ->
  exists t v, n = Leaf t v /\ (v = "*" \/ v = "**").
Proof.
  destruct n as [t v|]; [|done]. unfold is_star_token, node_eq_str.
  intros [[_ H]%andb_prop|[_ H]%andb_prop]%orb_prop; apply String.eqb_eq in H;
    exists t, v; auto.
Qed.

Lemma star_token_not_comma n : is_star_token n = true -> node_eq_str n "," = false.
Proof.
  intros (t & v & -> & [-> | ->])%is_star_token_leaf; simpl; by rewrite andb_false_r.
Qed.

Lemma unpack_children_star_counts cs :
  Forall (fun item => item.1 <= 2) (yields (unpack_children cs)).
Proof.
  induction cs as [|c rest IH IH'] using children_ind; [constructor|].
  cbn [unpack_children].
  destruct (node_eq_str c ","); [done|].
  destruct (is_star_token c) eqn:Hc.
  { apply is_star_token_leaf in Hc as (t & v & -> & Hv). simpl.
    destruct rest as [|el rest']; [constructor|]. simpl.
    constructor; [|by eapply IH'].
    destruct Hv as [-> | ->]; simpl; lia. }
  destruct (String.eqb (node_type c) "argument"); [|by constructor; [simpl; lia|]].
  destruct (node_children c) as [cs'|]; [|constructor]. simpl.
  destruct (index cs' 0) as [c0|] eqn:H0; [|constructor]. simpl.
  destruct (is_star_token c0) eqn:Hc0; [|by constructor; [simpl; lia|]].
  destruct (length cs' =? 2); [|constructor]. rewrite H0.
  apply is_star_token_leaf in Hc0 as (t & v & -> & Hv). simpl.
  destruct (index cs' 1) as [c1|]; [|constructor]. simpl.
  constructor; [|done]. simpl.
  destruct Hv as [-> | ->]; simpl; lia.
Qed.

(** X8.  The star count of every item that [unpack_arglist] yields is 0, 1
    or 2: the length of the star token in front of the item, or 0 when
    there is none. *)
Theorem unpack_arglist_star_counts arglist :
  Forall (fun item => item.1 = 0 \/ item.1 = 1 \/ item.1 = 2)
         (yields (unpack_arglist arglist)).
Proof.
  assert (Forall (fun item : nat * Node => item.1 <= 2) (yields (unpack_arglist arglist)))
    as H.
  { unfold unpack_arglist. destruct arglist as [n|]; [|constructor].
    repeat case_match; simpl; try constructor; simpl; try lia; try constructor;
      apply unpack_children_star_counts. }
  eapply Forall_impl; [exact H|]. simpl. lia.
Qed.

Lemma index_raise {A} (l : list A) i e : index l i = Raise e -> e = IndexError.
Proof. unfold index. destruct (l !! i); by intros [=]. Qed.

Lemma node_children_raise n e : node_children n = Raise e -> e = AttributeError.
Proof. destruct n; by intros [=]. Qed.

Lemma node_value_raise n e : node_value n = Raise e -> e = AttributeError.
Proof. destruct n; by intros [=]. Qed.

Ltac tree_error_tac :=
  repeat match goal with
  | H : index _ _ = Raise _ |- _ => apply index_raise in H; subst
  | H : node_children _ = Raise _ |- _ => apply node_children_raise in H; subst
  | H : node_value _ = Raise _ |- _ => apply node_value_raise in H; subst
  end;
  unfold tree_error; auto.

Lemma unpack_children_raises cs e :
  raised (unpack_children cs) = Some e -> tree_error e.
Proof.
  induction cs as [|c rest IH IH'] using children_ind; [done|].
  cbn [unpack_children].
  destruct (node_eq_str c ","); [done|].
  destruct (is_star_token c).
  { destruct (node_value c) as [v|] eqn:Hv; simpl.
    - destruct rest as [|el rest']; simpl; [intros [= <-]; tree_error_tac|].
      by eapply IH'.
    - intros [= <-]. tree_error_tac. }
  destruct (String.eqb (node_type c) "argument"); [|done].
  destruct (node_children c) as [cs'|] eqn:Hcs; simpl;
    [|intros [= <-]; tree_error_tac].
  destruct (index cs' 0) as [c0|] eqn:H0; simpl; [|intros [= <-]; tree_error_tac].
  destruct (is_star_token c0); [|done].
  destruct (length cs' =? 2); [|intros [= <-]; tree_error_tac].
  rewrite H0. simpl.
  destruct (node_value c0) as [v|] eqn:Hv; simpl; [|intros [= <-]; tree_error_tac].
  destruct (index cs' 1) as [c1|] eqn:H1; simpl; [done|].
  intros [= <-]. tree_error_tac.
Qed.

Lemma unpack_arglist_raises arglist e :
  raised (unpack_arglist arglist) = Some e -> tree_error e.
Proof.
  unfold unpack_arglist. destruct arglist as [n|]; [|done].
  destruct (String.eqb (node_type n) "arglist" || String.eqb (node_type n) "testlist").
  { destruct (node_children n) eqn:Hn; simpl;
      [apply unpack_children_raises|intros [= <-]; tree_error_tac]. }
  destruct (String.eqb (node_type n) "argument"); [|done].
  destruct (node_children n) as [cs|] eqn:Hn; simpl; [|intros [= <-]; tree_error_tac].
  destruct (index cs 0) as [c0|] eqn:H0; simpl; [|intros [= <-]; tree_error_tac].
  destruct (is_star_token c0); [|done]. apply unpack_children_raises.
Qed.

Lemma unpack_body_raises E ctx funcdef st star_count el e :
  unpack_body E ctx funcdef st star_count el = Raise e -> tree_error e.
Proof.
  unfold unpack_body.
  destruct (star_count =? 1); [done|]. destruct (star_count =? 2); [done|].
  destruct (String.eqb (node_type el) "argument"); [|done].
  destruct (node_children el) as [c|] eqn:Hc; simpl; [|intros [= <-]; tree_error_tac].
  destruct (length c =? 3).
  - destruct (index c 0) as [c0|] eqn:H0; simpl; [|intros [= <-]; tree_error_tac].
    destruct (node_value c0) as [name|] eqn:Hv; simpl; [|intros [= <-]; tree_error_tac].
    destruct (index c 2) as [c2|] eqn:H2; simpl; [done|intros [= <-]; tree_error_tac].
  - destruct (index c 1) as [s1|] eqn:H1; simpl; [|intros [= <-]; tree_error_tac].
    destruct (String.eqb (node_type s1) "comp_for").
    + destruct (node_children s1) as [cs|] eqn:Hs1; simpl;
        [|intros [= <-]; tree_error_tac].
      destruct (index cs 1) as [s2|] eqn:Hs2; simpl; [|intros [= <-]; tree_error_tac].
      destruct (index c 0) as [c0|] eqn:H0; simpl; [|intros [= <-]; tree_error_tac].
      unfold new_GeneratorComprehension.
      destruct (String.eqb (node_type s2) "sync_comp_for"); simpl;
        [done|intros [= <-]; tree_error_tac].
    + simpl.
      destruct (index c 0) as [c0|] eqn:H0; simpl; [|intros [= <-]; tree_error_tac].
      unfold new_GeneratorComprehension.
      destruct (String.eqb (node_type s1) "sync_comp_for"); simpl;
        [done|intros [= <-]; tree_error_tac].
Qed.

Lemma unpack_loop_raises E ctx funcdef items st e :
  (unpack_loop E ctx funcdef items st).2 = Some e -> tree_error e.
Proof.
  revert st. induction items as [|[star_count el] items IH]; intros st; [done|].
  cbn [unpack_loop].
  destruct (unpack_body E ctx funcdef st star_count el) as [st'|e'] eqn:Hb.
  - apply IH.
  - simpl. intros [= <-]. by eapply unpack_body_raises.
Qed.

Lemma unpack_raises E self funcdef e :
  raised (stream (unpack E self funcdef)) = Some e -> tree_error e.
Proof.
  unfold unpack.
  pose proof (unpack_loop_raises E (context self) funcdef
                (yields (unpack_arglist (argument_node self))) (mkState [] [] [])) as Hl.
  pose proof (unpack_arglist_raises (argument_node self)) as Ha.
  destruct (unpack_loop _ _ _ _ _) as [st [e1|]]; simpl in *.
  - intros [= <-]. by apply Hl.
  - destruct (raised (unpack_arglist (argument_node self))) as [e2|]; simpl; [|done].
    intros [= <-]. by apply Ha.
Qed.

(** X9.  Whatever the tree, the only exceptions that can leave [unpack] are
    those of walking it: [AttributeError], [IndexError], [AssertionError]
    and the [RuntimeError] of a star token without a target.  [unpack]
    never ends in [ParamIssue], [NotImplementedError] or [KeyError]. *)
Theorem unpack_raises_tree_errors E self funcdef e :
  raised (stream (unpack E self funcdef)) = Some e ->
  tree_error e /\ e <> ParamIssue /\ e <> NotImplementedError /\ e <> KeyError.
Proof.
  intros H%unpack_raises. split; [done|].
  by destruct H as [->|[->|[->| ->]]].
Qed.

Lemma unpack_raises_tree_errors_witness :
  tree_error AttributeError.
Proof.
  refine (proj1 (unpack_raises_tree_errors Demo.engine
            (Demo.call 7 (BaseNode "argument"
               [BaseNode "atom_expr" [Demo.name "a"; Demo.name "b"];
                Demo.operator "="; Demo.number "1"]))
            None AttributeError _)).
  reflexivity.
Defined.

Lemma argument_ok_cases c :
  argument_ok c = true ->
  positional_ok c = true
  \/ exists t c0 c1, c = BaseNode t [c0; c1] /\ String.eqb t "argument" = true
                     /\ is_star_token c0 = true.
Proof.
  destruct c as [t v|t cs]; simpl; [by left|].
  destruct (String.eqb t "argument") eqn:Ht; [|by left].
  destruct cs as [|c0 [|c1 [|c2 [|c3 cs]]]]; try done; try (by destruct c0).
  - destruct (is_star_token c0) eqn:Hc0; simpl; [|by left].
    intros _. right. by exists t, c0, c1.
  - by left.
Qed.

Lemma positional_ok_not_starred c :
  positional_ok c = true ->
  (if String.eqb (node_type c) "argument"
   then cs ← node_children c; c0 ← index cs 0; Ok (is_star_token c0, cs)
   else Ok (false, []))
  = Ok (false, match c with BaseNode t cs => if String.eqb t "argument" then cs else []
                       | _ => [] end).
Proof.
  destruct c as [t v|t cs]; simpl.
  - by intros ->%negb_true_iff.
  - destruct (String.eqb t "argument"); [|done].
    destruct cs as [|c0 [|c1 [|c2 [|c3 cs]]]]; try done; try (by destruct c0).
    + intros H. assert (is_star_token c0 = false) as Hc0.
      { destruct c0; by apply andb_prop in H as [->%negb_true_iff _]. }
      unfold index. simpl. by rewrite Hc0.
    + destruct c0 as [t0 v0|]; [|done]. intros H%negb_true_iff.
      unfold index. simpl. by rewrite H.
Qed.

Lemma children_ok_items cs :
  children_ok cs = true ->
  raised (unpack_children cs) = None /\ Forall item_ok (yields (unpack_children cs)).
Proof.
  induction cs as [|c rest IH IH'] using children_ind; [done|].
  cbn [unpack_children children_ok].
  destruct (node_eq_str c ","); [done|].
  destruct (is_star_token c) eqn:Hc.
  { apply is_star_token_leaf in Hc as (t & v & -> & Hv). simpl.
    destruct rest as [|el rest']; [done|]. intros Hok.
    destruct (IH' el rest' eq_refl Hok) as [Hr Hy]. simpl. split; [done|].
    constructor; [|done]. unfold item_ok. simpl.
    destruct Hv as [-> | ->]; auto. }
  intros [Hc_ok Hrest]%andb_prop. destruct (IH Hrest) as [Hr Hy].
  destruct (argument_ok_cases c Hc_ok) as [Hpos|(t & c0 & c1 & -> & Ht & Hc0)].
  - rewrite (positional_ok_not_starred c Hpos). simpl. split; [done|].
    constructor; [|done]. right. right. done.
  - simpl. rewrite Ht. unfold index. simpl. rewrite Hc0. simpl.
    apply is_star_token_leaf in Hc0 as (t0 & v & -> & Hv). simpl.
    split; [done|]. constructor; [|done]. unfold item_ok. simpl.
    destruct Hv as [-> | ->]; auto.
Qed.

Lemma arglist_ok_items arglist :
  arglist_ok arglist = true ->
  raised (unpack_arglist arglist) = None
  /\ Forall item_ok (yields (unpack_arglist arglist)).
Proof.
  destruct arglist as [[t v|t cs]|]; [| |done]; unfold unpack_arglist, arglist_ok;
    cbn [node_type node_children].
  - intros [[H1 H2]%orb_false_elim H3]%negb_true_iff%orb_false_elim.
    rewrite H1, H2, H3. simpl. split; [done|]. apply Forall_singleton.
    right. right. simpl. by rewrite H3.
  - destruct (String.eqb t "arglist" || String.eqb t "testlist") eqn:Hl.
    { simpl. apply children_ok_items. }
    intros Hok.
    destruct (argument_ok_cases _ Hok) as [Hpos|(t' & c0 & c1 & [= -> ->] & Ht & Hc0)].
    + pose proof (positional_ok_not_starred _ Hpos) as Hs. cbn [node_type] in Hs.
      destruct (String.eqb t "argument") eqn:Ht.
      * cbn [node_children] in Hs. revert Hs. unfold mbind, result_bind.
        destruct (index cs 0) as [c0|]; intros Hs; [|done].
        injection Hs as Hs. rewrite Hs. simpl. split; [done|].
        apply Forall_singleton. right. right. done.
      * simpl. split; [done|]. apply Forall_singleton. right. right. done.
    + rewrite Ht. unfold index. simpl. rewrite Hc0. simpl.
      rewrite (star_token_not_comma _ Hc0).
      apply is_star_token_leaf in Hc0 as (t0 & v & -> & Hv). simpl.
      split; [done|]. apply Forall_singleton. unfold item_ok. simpl.
      destruct Hv as [-> | ->]; auto.
Qed.

Lemma unpack_body_ok E ctx funcdef st item :
  item_ok item -> sync_clause item = true ->
  is_Some_result (unpack_body E ctx funcdef st item.1 item.2).
Proof.
  destruct item as [star_count el]. unfold item_ok, sync_clause, unpack_body. simpl.
  intros [->|[->|[-> Hpos]]]; [done..|]. simpl.
  destruct el as [t v|t cs]; simpl in *.
  - apply negb_true_iff in Hpos. by rewrite Hpos.
  - destruct (String.eqb t "argument"); [|done]. simpl.
    destruct cs as [|c0 [|c1 [|c2 [|c3 cs]]]]; try done; try (by destruct c0).
    assert (comp_clause_ok c1 = true) as Hcomp.
    { destruct c0; by apply andb_prop in Hpos as [_ ?]. }
    unfold index, new_GeneratorComprehension. simpl. unfold comp_clause_ok in Hcomp.
    destruct (String.eqb (node_type c1) "comp_for").
    + destruct c1 as [|? [|? [|sync ?]]]; try done. simpl. by intros ->.
    + simpl. by intros ->.
Qed.

Lemma unpack_loop_ok E ctx funcdef items st :
  Forall item_ok items -> forallb sync_clause items = true ->
  (unpack_loop E ctx funcdef items st).2 = None.
Proof.
  intros H. revert st. induction H as [|[star_count el] items Hi _ IH]; intros st; [done|].
  cbn [unpack_loop forallb]. intros [Hs Hrest]%andb_prop.
  pose proof (unpack_body_ok E ctx funcdef st _ Hi Hs) as Hb. simpl in Hb.
  destruct (unpack_body E ctx funcdef st star_count el); [|done]. by apply IH.
Qed.

(** X10.  On an argument list of the shape the grammar gives it (commas;
    star tokens each followed by a target; [argument] nodes that are a
    star and its target, an expression with a comprehension clause, or a
    name leaf, a token and an expression), and in which the clause of
    every generator comprehension is a [sync_comp_for] node (directly, or
    as second child of a [comp_for] node), [unpack] ends normally, for
    every engine and with or without a callee definition. *)
Theorem unpack_well_shaped E self funcdef :
  arglist_ok (argument_node self) = true ->
  forallb sync_clause (yields (unpack_arglist (argument_node self))) = true ->
  raised (stream (unpack E self funcdef)) = None.
Proof.
  intros [Hr Hitems]%arglist_ok_items Hsync. unfold unpack.
  pose proof (unpack_loop_ok E (context self) funcdef _ (mkState [] [] []) Hitems Hsync)
    as Hl.
  destruct (unpack_loop _ _ _ _ _) as [st e]. simpl in Hl. subst e.
  by rewrite Hr.
Qed.

Lemma unpack_well_shaped_witness :
  raised (stream (unpack Demo.engine
            (Demo.call 7
               (BaseNode "arglist"
                  [Demo.keyword "x" (Demo.number "1"); Demo.comma;
                   Demo.star (Demo.name "seq"); Demo.comma;
                   BaseNode "argument"
                     [Demo.name "i";
                      BaseNode "comp_for" [Demo.keyword_leaf "async"; Demo.for_in "i" "seq"]];
                   Demo.comma; Demo.operator "**"; Demo.name "d"]))
            (Some (mkFuncdef "f"))))
  = None.
Proof. apply unpack_well_shaped; reflexivity. Defined.

(** ** What the items contribute *)

Lemma lookup_seq_fmap {A B} (f : option A -> B) (l : list A) :
  (fun i => f (l !! i)) <$> seq 0 (length l) = (fun x => f (Some x)) <$> l.
Proof.
  induction l as [|x l IH]; [done|].
  cbn [length seq fmap list_fmap]. f_equal.
  rewrite <- fmap_S_seq, <- list_fmap_compose. exact IH.
Qed.

Lemma zip_longest_single {A} (l : list A) :
  zip_longest [l] = (fun x => [Some x]) <$> l.
Proof.
  unfold zip_longest. simpl. rewrite Nat.max_0_r.
  apply (lookup_seq_fmap (fun o => [o])).
Qed.

(** X11.  A single-star argument with one inferred candidate contributes
    one unnamed entry per element that iterating the candidate gives, in
    the order of the iteration, whether or not a callee definition was
    passed. *)
Theorem star_expands_elements E ctx funcdef el array lazy_values :
  infer_node E ctx el = [array] ->
  py__iter__ E array = Some lazy_values ->
  contribution E ctx funcdef (1, el)
  = (fun x => (None, get_merged_lazy_value E [x])) <$> lazy_values.
Proof.
  intros Hinfer Hiter. unfold contribution, unpack_body. simpl.
  rewrite Hinfer. simpl. unfold _iterate_star_args. rewrite Hiter. simpl.
  rewrite zip_longest_single, <- list_fmap_compose. done.
Qed.

Lemma star_expands_elements_witness :
  contribution Demo.engine 7 None (1, Demo.name "seq")
  = [(None, Demo.known 11); (None, Demo.known 12); (None, Demo.known 13)].
Proof.
  exact (star_expands_elements Demo.engine 7 None (Demo.name "seq") (InferredValue 1)
           [Demo.known 11; Demo.known 12; Demo.known 13] eq_refl eq_refl).
Defined.

Lemma longest_has_element {A} (iterators : list (list A)) i :
  i < foldr Nat.max 0 (length <$> iterators) ->
  exists it, it ∈ iterators /\ i < length it.
Proof.
  induction iterators as [|it iterators IH]; intros Hi; [simpl in Hi; lia|].
  rewrite fmap_cons in Hi. cbn [foldr] in Hi.
  destruct (decide (i < length it)) as [Hlt|Hge].
  - exists it. split; [left|done].
  - destruct IH as (it' & Hin & Hlt); [lia|]. exists it'. split; [by right|done].
Qed.

(** X12.  Every row that the star branch of [unpack] hands to
    [get_merged_lazy_value] holds at least one lazy value: a row of
    [zip_longest] is never made of fill values only, so the merge is never
    asked for the first element of an empty list. *)
Theorem zip_longest_rows_not_empty {A} (iterators : list (list A)) :
  Forall (fun row => not_None row <> []) (zip_longest iterators).
Proof.
  unfold zip_longest. apply Forall_fmap, Forall_forall.
  intros i [_ Hi]%elem_of_seq. simpl in Hi.
  destruct (longest_has_element iterators i Hi) as (it & Hin & Hlt).
  destruct (lookup_lt_is_Some_2 it i Hlt) as [x Hx].
  assert (x ∈ not_None ((fun it => it !! i) <$> iterators)) as Hmem.
  { unfold not_None. apply list_elem_of_omap. exists (Some x). split; [|done].
    apply list_elem_of_fmap. by exists it. }
  simpl. intros Hnil. rewrite Hnil in Hmem. by apply elem_of_nil in Hmem.
Qed.

(** X13.  A double-star argument with any number of inferred candidates
    contributes, candidate by candidate and in their order, the keyed
    entries of each candidate's mapping, and the issues of each; it never
    buffers a keyword pair and never fails. *)
Theorem star_star_expands_candidates E ctx funcdef el st :
  unpack_body E ctx funcdef st 2 el
  = Ok (state_app st
          (mkState
             (flat_map (fun dct => (fun '(key, values) => (Some key, values))
                                     <$> (_star_star_dict E ctx dct el funcdef).1)
                       (infer_node E ctx el))
             []
             (flat_map (fun dct => (_star_star_dict E ctx dct el funcdef).2)
                       (infer_node E ctx el)))).
Proof. unfold unpack_body. simpl. by rewrite star_star_fold_flat. Qed.

(** X14.  Apart from double-star arguments, no argument contributes a
    keyed entry at once: the values of a star expansion, a generator
    comprehension and a positional expression are all unnamed.  Keys in
    the stream of [unpack] come from double-star expansions and from the
    keyword pairs yielded at the end only. *)
Theorem contribution_unnamed E ctx funcdef item :
  item.1 <> 2 -> Forall (fun e => e.1 = None) (contribution E ctx funcdef item).
Proof.
  destruct item as [star_count el]. simpl. intros H2%Nat.eqb_neq.
  unfold contribution, unpack_body. simpl. rewrite H2.
  destruct (star_count =? 1).
  { simpl. apply Forall_fmap, Forall_forall. by intros. }
  destruct (String.eqb (node_type el) "argument"); [|by repeat constructor].
  destruct (node_children el) as [c|]; [|constructor]. simpl.
  destruct (length c =? 3).
  - destruct (index c 0) as [c0|]; [|constructor]. simpl.
    destruct (node_value c0) as [name|]; [|constructor]. simpl.
    destruct (index c 2) as [c2|]; constructor.
  - destruct (index c 1) as [s1|]; [|constructor]. simpl.
    destruct (if String.eqb (node_type s1) "comp_for"
              then node_children s1 ≫= (fun cs => index cs 1)
              else Ok s1) as [s2|]; [|constructor]. simpl.
    destruct (index c 0) as [c0|]; [|constructor]. simpl.
    destruct (new_GeneratorComprehension ctx s2 c0) as [comp|]; [|constructor].
    simpl. by repeat constructor.
Qed.

Lemma contribution_unnamed_witness :
  Forall (fun e : Entry => e.1 = None)
    (contribution Demo.engine 7 None (1, Demo.name "seq")).
Proof. apply contribution_unnamed. simpl. lia. Defined.

(** X15.  A call whose only argument is a generator expression, [entry]
    followed by the comprehension clause [comp]: [sync] being the clause
    itself, or its second child when the clause is a [comp_for] node,
    [unpack] yields one unnamed entry, the known value of a generator
    comprehension over [sync] with [entry] as entry node, and reports
    nothing, when [sync] is a [sync_comp_for] node; when it is not, the
    constructor's assertion fails and [unpack] raises [AssertionError]
    without having yielded. *)
Theorem unpack_generator_comprehension E ctx trailer funcdef entry comp sync :
  is_star_token entry = false ->
  comp_clause (BaseNode "argument" [entry; comp]) = Some sync ->
  unpack E (mkTreeArguments ctx (Some (BaseNode "argument" [entry; comp])) trailer) funcdef
  = if String.eqb (node_type sync) "sync_comp_for" then
      mkUnpacked
        (mkGen [(None, LazyKnownValue (GeneratorComprehension ctx sync entry))] None) []
    else mkUnpacked (mkGen [] (Some AssertionError)) [].
Proof.
  intros Hentry Hsync.
  assert (unpack_arglist (Some (BaseNode "argument" [entry; comp]))
          = mkGen [(0, BaseNode "argument" [entry; comp])] None) as Hal.
  { unfold unpack_arglist, index. simpl. by rewrite Hentry. }
  unfold unpack. cbn [argument_node context]. rewrite Hal.
  cbn [yields raised unpack_loop]. unfold unpack_body, index, new_GeneratorComprehension.
  simpl in Hsync |- *.
  destruct (String.eqb (node_type comp) "comp_for").
  - destruct comp as [|t [|c0 [|s2 rest]]]; try done. injection Hsync as ->. simpl.
    by destruct (String.eqb (node_type sync) "sync_comp_for").
  - injection Hsync as ->. simpl.
    by destruct (String.eqb (node_type sync) "sync_comp_for").
Qed.

Lemma unpack_generator_comprehension_witness :
  unpack Demo.engine
    (Demo.call 7 (BaseNode "argument"
                    [Demo.name "i";
                     BaseNode "comp_for"
                       [Demo.keyword_leaf "async"; Demo.for_in "i" "seq"]]))
    None
  = mkUnpacked
      (mkGen [(None, LazyKnownValue
                       (GeneratorComprehension 7 (Demo.for_in "i" "seq") (Demo.name "i")))]
             None) [].
Proof.
  exact (unpack_generator_comprehension Demo.engine 7 None None (Demo.name "i")
           (BaseNode "comp_for" [Demo.keyword_leaf "async"; Demo.for_in "i" "seq"])
           (Demo.for_in "i" "seq") eq_refl eq_refl).
Defined.

(** ** The clinic decorator: what it raises and what it passes on *)

Lemma collect_unnamed_raised l r acc :
  match collect_unnamed l r acc with
  | Raise e => r = Some e
  | Ok (_, it) => forall e, raised it = Some e -> r = Some e
  end.
Proof.
  revert acc. induction l as [|[[k|] a] l IH]; intros acc; simpl.
  - by destruct r.
  - done.
  - apply IH.
Qed.

Lemma clinic_loop_raises E ps it e :
  raised (clinic_loop E ps it) = Some e ->
  e = ParamIssue \/ e = NotImplementedError \/ raised it = Some e.
Proof.
  revert it. induction ps as [|p ps IH]; intros it; [done|].
  cbn [clinic_loop].
  destruct (p_stars p =? 1).
  { pose proof (collect_unnamed_raised (yields it) (raised it) []) as Hc.
    destruct (collect_unnamed _ _ _) as [[lv it']|e']; simpl.
    - intros [?|[?|?]]%IH; auto.
    - intros [= <-]. auto. }
  destruct (p_stars p =? 2); [intros [= <-]; auto|].
  unfold pb_next. destruct it as [[|[key argument] l] r]; simpl.
  - destruct r as [e'|]; simpl; [intros [= <-]; auto|].
    destruct (negb (p_optional p)); simpl; [intros [= <-]; auto|].
    intros [?|[?|?]]%IH; auto.
  - destruct (bool_decide (is_Some key)); simpl; [intros [= <-]; auto|].
    destruct (_ && _); simpl; [intros [= <-]; auto|].
    intros [?|[?|?]]%IH; auto.
Qed.

Lemma iterate_argument_clinic_raises E arguments parameters e :
  raised (_iterate_argument_clinic E arguments parameters) = Some e ->
  e = ParamIssue \/ e = NotImplementedError \/ tree_error e.
Proof.
  unfold _iterate_argument_clinic.
  destruct arguments as [self| | |]; simpl; try (intros [= <-]; by auto).
  - intros [?|[?|H]]%clinic_loop_raises; auto.
    apply unpack_raises in H. auto.
  - intros [?|[?|H]]%clinic_loop_raises; auto. done.
Qed.

(** X16.  A call of the wrapper raises [KeyError] exactly when it is given
    no [arguments] keyword: nothing in the matching or in the unpacking
    behind it ever raises one. *)
Theorem wrapper_KeyError E clinic_args keep_arguments_param args
    (kwargs : gmap string PyObj) :
  wrapper E clinic_args keep_arguments_param args kwargs = Raise KeyError
  <-> kwargs !! "arguments" = None.
Proof.
  unfold wrapper. split.
  - destruct (kwargs !! "arguments") as [a|]; [|done].
    assert (forall kw : gmap string PyObj,
      match a with
      | ObjArguments arguments =>
          match list_of_gen (_iterate_argument_clinic E arguments clinic_args) with
          | Raise ParamIssue => Ok (Return NO_VALUES)
          | Raise e => Raise e
          | Ok value_sets => Ok (CallFunc (args ++ (ObjValueSet <$> value_sets)) kw)
          end
      | _ => Raise AttributeError
      end <> Raise KeyError) as Hne.
    { intros kw. destruct a as [arguments| |]; [|done..]. unfold list_of_gen.
      destruct (raised _) as [e|] eqn:He; [|done].
      apply iterate_argument_clinic_raises in He as [->|[->|[->|[->|[->| ->]]]]]; done. }
    destruct keep_arguments_param; simpl; intros H; by apply Hne in H.
  - by intros ->.
Qed.

(** X17.  When the clinic string parses and the matching succeeds, the
    decorated function is called with the positional arguments followed
    by the matched value sets, in the order of the parameters.  With
    [keep_arguments_param] it gets the keywords unchanged; without, the
    keywords [arguments] and [callback] are both taken out and all others
    kept.  [keep_callback_param] has no influence on the call. *)
Theorem repack_call E spec keep_arguments_param keep_callback_param w args
    (kwargs : gmap string PyObj) arguments value_sets :
  repack_with_argument_clinic E spec keep_arguments_param keep_callback_param
  = Some (Ok w) ->
  kwargs !! "arguments" = Some (ObjArguments arguments) ->
  (forall clinic_args,
      list_of_gen <$> _parse_argument_clinic spec = Some (Ok clinic_args) ->
      list_of_gen (_iterate_argument_clinic E arguments clinic_args) = Ok value_sets) ->
  exists kwargs',
    w args kwargs = Ok (CallFunc (args ++ (ObjValueSet <$> value_sets)) kwargs')
    /\ (keep_arguments_param = true -> kwargs' = kwargs)
    /\ (keep_arguments_param = false ->
        kwargs' !! "arguments" = None /\ kwargs' !! "callback" = None
        /\ forall k, k <> "arguments" -> k <> "callback" -> kwargs' !! k = kwargs !! k).
Proof.
  unfold repack_with_argument_clinic. intros Hw Hk Hmatch.
  destruct (_parse_argument_clinic spec) as [parsed|]; [|done]. simpl in Hw.
  destruct (list_of_gen parsed) as [clinic_args|] eqn:Hp; [|done].
  simpl in Hw. injection Hw as <-.
  specialize (Hmatch clinic_args). simpl in Hmatch. rewrite Hp in Hmatch.
  specialize (Hmatch eq_refl).
  unfold wrapper. rewrite Hk. destruct keep_arguments_param; simpl; rewrite Hmatch.
  - exists kwargs. by split_and!.
  - exists (delete "callback" (delete "arguments" kwargs)).
    split_and!; [done..|]. intros _. split_and!.
    + rewrite lookup_delete_ne by done. apply lookup_delete_eq.
    + apply lookup_delete_eq.
    + intros k Ha Hc. by rewrite !lookup_delete_ne.
Qed.

Lemma repack_call_witness :
  exists w kwargs',
    repack_with_argument_clinic Demo.engine "object, name[, default], /" false true
    = Some (Ok w)
    /\ w [ObjOther 0]
         {[ "arguments" :=
              ObjArguments (ValuesArguments [[InferredValue 1]; [InferredValue 3]]);
            "callback" := ObjOther 1; "value" := ObjOther 2 ]}
       = Ok (CallFunc [ObjOther 0; ObjValueSet [InferredValue 1];
                       ObjValueSet [InferredValue 3]; ObjValueSet []] kwargs')
    /\ kwargs' !! "callback" = None /\ kwargs' !! "value" = Some (ObjOther 2).
Proof.
  destruct (repack_with_argument_clinic Demo.engine "object, name[, default], /" false true)
    as [[w|]|] eqn:Hw; [|by vm_compute in Hw..].
  destruct (repack_call Demo.engine "object, name[, default], /" false true w
              [ObjOther 0]
              {[ "arguments" :=
                   ObjArguments (ValuesArguments [[InferredValue 1]; [InferredValue 3]]);
                 "callback" := ObjOther 1; "value" := ObjOther 2 ]}
              (ValuesArguments [[InferredValue 1]; [InferredValue 3]])
              [[InferredValue 1]; [InferredValue 3]; []] Hw)
    as (kwargs' & Hcall & _ & Hdrop).
  - by vm_compute.
  - intros clinic_args Hp. vm_compute in Hp. injection Hp as <-. by vm_compute.
  - exists w, kwargs'. split_and!; [done|exact Hcall|..].
    + by destruct (Hdrop eq_refl) as (_ & ? & _).
    + destruct (Hdrop eq_refl) as (_ & _ & ->); [done..|]. by vm_compute.
Defined.

(** ** Forcing all arguments *)

(** X18.  [infer_all] returns for every [Arguments] object: twelve nested
    calls of [try_iter_content] per argument are enough, and no value is
    iterated deeper than depth 10.  Whatever [funcdef] it is given, it
    reports no issue, because it calls [unpack] without it; and it ends
    the way the unpacking ends, so for the variants without an [unpack] of
    their own it raises [NotImplementedError]. *)
Theorem infer_all_returns fuel E self funcdef :
  11 < fuel ->
  exists r, infer_all fuel E self funcdef = Some r
    /\ all_issues r = []
    /\ Forall (fun ev => iter_depth ev <= 10) (iterated r)
    /\ all_raised r = raised (stream (arguments_unpack E self None))
    /\ (self = AnonymousArguments \/ (exists w, self = TreeArgumentsWrapper w) ->
        r = mkInferredAll [] [] (Some NotImplementedError)).
Proof.
  intros Hfuel. unfold infer_all.
  destruct (for_each_total (fun ev => iter_depth ev <= 10)
              (yields (stream (arguments_unpack E self None)))
              (fun '(key, lazy_value) => try_iter_content fuel E (infer E lazy_value) 0))
    as (evs & Hevs & Hdepth).
  { intros [key lazy_value] _.
    destruct (try_iter_content_total fuel E (infer E lazy_value) 0) as (evs & -> & H);
      [lia|].
    exists evs. split; [done|]. eapply Forall_impl; [exact H|]. simpl. lia. }
  rewrite Hevs. simpl. eexists. split; [done|]. simpl. split_and!; [|done..|].
  - destruct self as [self| | |]; [|done..]. simpl.
    apply (unpack_no_funcdef_silent E self None).
  - intros [-> | [w ->]]; simpl in *; by injection Hevs as <-.
Qed.

Lemma infer_all_returns_witness :
  exists r, infer_all 12 Demo.engine
              (OfTree (Demo.call 7 (Demo.star (Demo.name "n")))) (Some (mkFuncdef "f"))
            = Some r
    /\ all_issues r = [] /\ all_raised r = None.
Proof.
  destruct (infer_all_returns 12 Demo.engine
              (OfTree (Demo.call 7 (Demo.star (Demo.name "n")))) (Some (mkFuncdef "f")))
    as (r & Hr & Hi & _ & Hraised & _); [lia|].
  exists r. split_and!; [done..|]. rewrite Hraised. reflexivity.
Defined.

(** ** Back-tracing along a chain *)

Lemma calling_loop_visited fuel E (heap : Heap) old a :
  a ∈ old -> calling_loop fuel E heap old a = Stopped a.
Proof. intros Ha. destruct fuel; simpl; by rewrite bool_decide_eq_true_2. Qed.

Lemma calling_loop_step fuel E (heap : Heap) old a self :
  a ∉ old -> heap !! a = Some (OfTree self) ->
  calling_loop (S fuel) E heap old a
  = match round E self with
    | Follow b => calling_loop fuel E heap (old ++ [a]) b
    | Stay => Stopped a
    | GiveUp => ReturnedEmpty
    | Fail e => Raised e
    end.
Proof.
  intros Ha Hh. cbn [calling_loop]. rewrite bool_decide_eq_false_2 by done.
  rewrite Hh. unfold round.
  assert (calling_loop fuel E heap (old ++ [a]) a = Stopped a) as Hstay.
  { apply calling_loop_visited, elem_of_app. right. by left. }
  destruct (list_of_gen _) as [names|]; [|done].
  destruct (reverse names) as [|[c n] ?]; [done|].
  destruct (goto E c n) as [|[[|[va|]]|] [|]]; done.
Qed.

Lemma calling_loop_rest fuel E (heap : Heap) old a obj :
  heap !! a = Some obj ->
  match obj with OfTree _ => False | _ => True end ->
  calling_loop fuel E heap old a = Stopped a.
Proof.
  intros Hh Hobj. destruct fuel; simpl; case_bool_decide; try done;
    rewrite Hh; by destruct obj.
Qed.

Lemma forwards_cons E (heap : Heap) a b l :
  forwards E heap (a :: b :: l)
  <-> (exists self, heap !! a = Some (OfTree self) /\ round E self = Follow b)
      /\ forwards E heap (b :: l).
Proof. done. Qed.

(** Following a chain of forwarding objects leads the loop to the last
    object of the chain, with all the others visited. *)
Lemma calling_loop_chain E (heap : Heap) visited z old fuel :
  forwards E heap (visited ++ [z]) -> NoDup (old ++ visited) ->
  calling_loop (length visited + fuel) E heap old (hd z (visited ++ [z]))
  = calling_loop fuel E heap (old ++ visited) z.
Proof.
  revert old. induction visited as [|a visited IH]; intros old Hf Hnd.
  { simpl. by rewrite app_nil_r. }
  assert (exists b l, visited ++ [z] = b :: l /\ hd z (visited ++ [z]) = b)
    as (b & l & Hbl & Hb).
  { destruct visited; simpl; eauto. }
  cbn [app] in Hf |- *. rewrite Hbl in Hf.
  apply forwards_cons in Hf as [(self & Hself & Hround) Hf]. rewrite <- Hbl in Hf.
  cbn [hd length Nat.add].
  rewrite (calling_loop_step _ E heap old a self); [|by apply NoDup_app in Hnd as (_ & Hd & _); intros ?; eapply Hd; [done|left]|done].
  rewrite Hround, <- Hb, IH; [|done|by rewrite <- app_assoc].
  by rewrite <- app_assoc.
Qed.

(** X19.  Along a chain of distinct [TreeArguments] objects of any length,
    each forwarding its last starred name to the next, [get_calling_nodes]
    returns the node of the object the chain ends in: an object that is
    no [TreeArguments], or one whose round stays (no starred name, a name
    that does not resolve to one parameter, or a parameter without
    [var_args]).  It reports that object's argument node, or else its
    trailer, or else nothing. *)
Theorem get_calling_nodes_chain E (heap : Heap) visited z obj fuel :
  NoDup (visited ++ [z]) ->
  forwards E heap (visited ++ [z]) ->
  heap !! z = Some obj ->
  match obj with OfTree self => round E self = Stay | _ => True end ->
  length visited < fuel ->
  get_calling_nodes fuel E heap (hd z (visited ++ [z])) = Returns (provenance obj).
Proof.
  intros Hnd Hf Hz Hrest Hfuel. unfold get_calling_nodes.
  replace fuel with (length visited + S (fuel - S (length visited))) by lia.
  rewrite (calling_loop_chain E heap visited z []);
    [|done|by apply NoDup_app in Hnd as (? & _ & _)].
  assert (z ∉ visited) as Hzv.
  { apply NoDup_app in Hnd as (_ & Hd & _). intros Hin. eapply Hd; [done|left]. }
  assert (calling_loop (S (fuel - S (length visited))) E heap ([] ++ visited) z
          = Stopped z) as ->.
  { destruct obj as [self| | |].
    - rewrite (calling_loop_step _ E heap _ z self) by done. by rewrite Hrest.
    - by eapply calling_loop_rest.
    - by eapply calling_loop_rest.
    - by eapply calling_loop_rest. }
  rewrite Hz. unfold provenance. by repeat case_match.
Qed.

Lemma get_calling_nodes_chain_witness :
  get_calling_nodes 6 Demo.engine Demo.heap 1
  = Returns (provenance
               (OfTree (Demo.call 40
                          (BaseNode "arglist" [Demo.name "x"; Demo.comma; Demo.name "y"])))).
Proof.
  apply (get_calling_nodes_chain Demo.engine Demo.heap [1; 2; 3] 4).
  - compute_done.
  - simpl. split_and!; try done; eexists; split; by vm_compute.
  - by vm_compute.
  - by vm_compute.
  - simpl. lia.
Defined.

(** X20.  When the chain closes on itself, the last object forwarding to
    one that was visited, [get_calling_nodes] returns the node of that
    revisited object, which need not be the one it started from. *)
Theorem get_calling_nodes_cycle E (heap : Heap) visited z self b obj fuel :
  NoDup (visited ++ [z]) ->
  forwards E heap (visited ++ [z]) ->
  heap !! z = Some (OfTree self) -> round E self = Follow b ->
  b ∈ visited ++ [z] -> heap !! b = Some obj ->
  length visited < fuel ->
  get_calling_nodes fuel E heap (hd z (visited ++ [z])) = Returns (provenance obj).
Proof.
  intros Hnd Hf Hz Hround Hb Hobj Hfuel. unfold get_calling_nodes.
  replace fuel with (length visited + S (fuel - S (length visited))) by lia.
  rewrite (calling_loop_chain E heap visited z []);
    [|done|by apply NoDup_app in Hnd as (? & _ & _)].
  assert (z ∉ visited) as Hzv.
  { apply NoDup_app in Hnd as (_ & Hd & _). intros Hin. eapply Hd; [done|left]. }
  rewrite (calling_loop_step _ E heap _ z self) by done. rewrite Hround.
  rewrite calling_loop_visited by done.
  rewrite Hobj. unfold provenance. by repeat case_match.
Qed.

Lemma get_calling_nodes_cycle_witness :
  get_calling_nodes 6 Demo.engine (<[4 := OfTree (Demo.call 40 (Demo.star (Demo.name "b")))]> Demo.heap) 1
  = Returns (provenance (OfTree (Demo.call 30 (Demo.star (Demo.name "c"))))).
Proof.
  apply (get_calling_nodes_cycle Demo.engine _ [1; 2; 3] 4
           (Demo.call 40 (Demo.star (Demo.name "b"))) 3).
  - compute_done.
  - simpl. split_and!; try done; eexists; split; by vm_compute.
  - by vm_compute.
  - by vm_compute.
  - compute_done.
  - by vm_compute.
  - simpl. lia.
Defined.

(** X21.  When the chain reaches an object whose last starred name
    resolves to a parameter made up by the dynamic search,
    [get_calling_nodes] returns the empty list, however long the chain
    before it. *)
Theorem get_calling_nodes_dynamic E (heap : Heap) visited z self fuel :
  NoDup (visited ++ [z]) ->
  forwards E heap (visited ++ [z]) ->
  heap !! z = Some (OfTree self) -> round E self = GiveUp ->
  length visited < fuel ->
  get_calling_nodes fuel E heap (hd z (visited ++ [z])) = Returns [].
Proof.
  intros Hnd Hf Hz Hround Hfuel. unfold get_calling_nodes.
  replace fuel with (length visited + S (fuel - S (length visited))) by lia.
  rewrite (calling_loop_chain E heap visited z []);
    [|done|by apply NoDup_app in Hnd as (? & _ & _)].
  assert (z ∉ visited) as Hzv.
  { apply NoDup_app in Hnd as (_ & Hd & _). intros Hin. eapply Hd; [done|left]. }
  rewrite (calling_loop_step _ E heap _ z self) by done. by rewrite Hround.
Qed.

Lemma get_calling_nodes_dynamic_witness :
  get_calling_nodes 2 dynamic_engine dynamic_heap 1 = Returns [].
Proof.
  apply (get_calling_nodes_dynamic dynamic_engine dynamic_heap [1] 2
           (Demo.call 20 (Demo.star (Demo.name "dyn")))).
  - compute_done.
  - simpl. split_and!; try done; eexists; split; by vm_compute.
  - by vm_compute.
  - by vm_compute.
  - simpl. lia.
Defined.

(** ** The names that are followed *)

Lemma as_tree_tuple_objects_starred ctx items :
  Forall (fun item : nat * Node =>
            String.eqb (node_type item.2) "argument" = true ->
            item.1 = 0 /\ exists t cs, item.2 = BaseNode t cs) items ->
  raised (gen_map as_tree_tuple_object items None) = None
  /\ omap (fun '(name, default, star_count) =>
             if (star_count =? 0) || negb (is_Name name) then None
             else Some (ctx, name))
          (yields (gen_map as_tree_tuple_object items None))
     = omap (starred_name ctx) items.
Proof.
  induction 1 as [|[star_count el] items Hitem _ [IHr IHy]]; [done|].
  cbn [gen_map]. unfold as_tree_tuple_object at 1 3. simpl in Hitem.
  destruct (String.eqb (node_type el) "argument") eqn:Ht.
  - destruct (Hitem eq_refl) as (-> & t & cs & ->). cbn [node_children].
    assert (exists name default,
      (c ← Ok cs;
       if length c =? 3
       then a ← index c 0; d ← index c 2; Ok (a, Some d, 0)
       else Ok (BaseNode t cs, None, 0)) = Ok (name, default, 0)) as (name & dflt & ->).
    { simpl. destruct (length cs =? 3) eqn:Hlen; [|by eexists _, _].
      apply Nat.eqb_eq in Hlen. destruct cs as [|c0 [|c1 [|c2 [|]]]]; try done.
      by eexists _, _. }
    simpl. split; [done|]. exact IHy.
  - simpl in IHy |- *. split; [done|].
    destruct (star_count =? 0), (is_Name el); simpl; f_equal; exact IHy.
Qed.

(** X22.  On an argument list that unpacks without exception and in which
    only items without star are [argument] nodes, the names that
    [get_calling_nodes] may follow are exactly the targets of the star and
    double-star arguments that are plain names, in source order, each with
    the context of the call.  Keyword pairs, positional arguments and
    starred expressions that are no name are never followed. *)
Theorem iter_calling_names_with_star_names self :
  raised (unpack_arglist (argument_node self)) = None ->
  Forall (fun item : nat * Node =>
            String.eqb (node_type item.2) "argument" = true ->
            item.1 = 0 /\ exists t cs, item.2 = BaseNode t cs)
         (yields (unpack_arglist (argument_node self))) ->
  iter_calling_names_with_star self
  = mkGen (omap (starred_name (context self)) (yields (unpack_arglist (argument_node self))))
          None.
Proof.
  intros Hr Hitems. unfold iter_calling_names_with_star, _as_tree_tuple_objects.
  rewrite Hr.
  by destruct (as_tree_tuple_objects_starred (context self) _ Hitems) as [-> ->].
Qed.

Lemma iter_calling_names_with_star_names_witness :
  iter_calling_names_with_star
    (Demo.call 7
       (BaseNode "arglist"
          [Demo.keyword "x" (Demo.name "k"); Demo.comma; Demo.star (Demo.name "a");
           Demo.comma; Demo.name "p"; Demo.comma;
           Demo.star (BaseNode "atom_expr" [Demo.name "g"; Demo.operator "()"]);
           Demo.comma; Demo.star_star (Demo.name "kw")]))
  = mkGen [(7, Demo.name "a"); (7, Demo.name "kw")] None.
Proof.
  rewrite iter_calling_names_with_star_names; [reflexivity|reflexivity|].
  repeat (constructor; [simpl; intros H; first [discriminate H | by eauto]|]).
  constructor.
Defined.

(** ** The clinic parser: flags only come with their marks *)

Lemma has_char_app c (a b : string) :
  has_char c (a +:+ b) = has_char c a || has_char c b.
Proof.
  induction a as [|x a IH]; [done|]. rewrite string_app_cons. simpl.
  by rewrite IH, orb_assoc.
Qed.

Lemma star_matches {R} p s (k : string -> option R) x :
  Re.star p s k = Some x ->
  exists w s', s = w +:+ s' /\ string_all p w = true /\ k s' = Some x.
Proof. apply star_sound. Qed.

Lemma run_matches {R} r s c (k : string -> Re.captures -> option R) x :
  Re.run r s c k = Some x ->
  exists s' c', matches_to r s c s' c' /\ k s' c' = Some x.
Proof.
  revert s c k x.
  induction r as [|p|r1 IH1 r2 IH2|r1 IH1 r2 IH2|r1 IH1|p|n r1 IH1];
    intros s c k x H; simpl in H.
  - exists s, c. split; [constructor|done].
  - destruct s as [|a s]; [done|]. destruct (p a) eqn:Hp; [|done].
    exists s, c. split; [by constructor|done].
  - apply IH1 in H as (s1 & c1 & H1 & H). apply IH2 in H as (s2 & c2 & H2 & H).
    exists s2, c2. split; [by econstructor|done].
  - destruct (Re.run r1 s c k) as [y|] eqn:H1.
    + injection H as ->. apply IH1 in H1 as (s' & c' & ? & ?).
      exists s', c'. split; [by apply m_alt_l|done].
    + apply IH2 in H as (s' & c' & ? & ?).
      exists s', c'. split; [by apply m_alt_r|done].
  - destruct (Re.run r1 s c k) as [y|] eqn:H1.
    + injection H as ->. apply IH1 in H1 as (s' & c' & ? & ?).
      exists s', c'. split; [by apply m_opt_some|done].
    + exists s, c. split; [apply m_opt_none|done].
  - apply star_matches in H as (w & s' & -> & Hw & H).
    exists s', c. split; [by constructor|done].
  - apply IH1 in H as (s' & c' & H1 & H).
    exists s', (Re.capture n (Re.consumed s s') c'). split; [by constructor|done].
Qed.

Lemma matches_to_suffix r s c s' c' :
  matches_to r s c s' c' -> exists w, s = w +:+ s'.
Proof.
  induction 1 as [s c|p a s c Hp|r1 r2 s c s1 c1 s2 c2 _ [w1 ->] _ [w2 ->]
                 |r1 r2 s c s' c' _ IH|r1 r2 s c s' c' _ IH|r s c s' c' _ IH|r s c
                 |p w s c Hw|n r s c s' c' _ IH]; eauto.
  - by exists EmptyString.
  - by exists (String a EmptyString).
  - exists (w1 +:+ w2). by rewrite string_app_assoc.
  - by exists EmptyString.
Qed.

Lemma matches_to_no_groups r s c s' c' :
  matches_to r s c s' c' -> no_groups r = true -> c' = c.
Proof.
  induction 1; simpl; try done.
  - intros [H1 H2]%andb_prop. by rewrite IHmatches_to2, IHmatches_to1.
  - intros [H1 H2]%andb_prop. auto.
  - intros [H1 H2]%andb_prop. auto.
Qed.

(** What a match of the clinic pattern tells about the string: the rest is
    a suffix; a match without word is a slash; a match with group 1 has
    an opening bracket; the word of group 2 is part of the string. *)
Lemma clinic_match_facts s m :
  Re.re_match clinic_re s = Some m ->
  (exists w, s = w +:+ Re.rest m)
  /\ (Re.group m 2 = None -> has_char "/" s = true)
  /\ (is_Some (Re.group m 1) -> has_char "[" s = true)
  /\ (forall g, Re.group m 2 = Some g -> exists w1 w2, s = w1 +:+ g +:+ w2).
Proof.
  intros H. unfold Re.re_match in H.
  apply run_matches in H as (s' & c' & Hm & [= <-]). simpl.
  split; [by eapply matches_to_suffix|].
  unfold clinic_re, Re.Chr, Re.Plus in Hm.
  inversion Hm as [| |? ? ? ? s1 c1 ? ? Hhead Htail| | | | | |]; subst.
  apply matches_to_no_groups in Htail as ->; [|done].
  inversion Hhead as [| | |? ? ? ? ? ? HA|? ? ? ? ? ? HB| | | |]; subst.
  - (* a parameter *)
    inversion HA as [| |? ? ? ? sp cp ? ? Hpre Hword| | | | | |]; subst.
    inversion Hword as [| | | | | | | |? ? ? ? ? ? Hw]; subst.
    pose proof (matches_to_no_groups _ _ _ _ _ Hw eq_refl) as ->.
    destruct (matches_to_suffix _ _ _ _ _ Hpre) as [wp ->].
    destruct (matches_to_suffix _ _ _ _ _ Hw) as [g ->].
    destruct (matches_to_suffix _ _ _ _ _ Hm) as [w0 Hw0].
    rewrite consumed_app. unfold Re.capture. simpl.
    split_and!; [done| |].
    + inversion Hpre as [| | |? ? ? ? ? ? H1|? ? ? ? ? ? H23| | | |]; subst.
      * inversion H1 as [| |? ? ? ? sb cb ? ? Hb Hopts| | | | | |]; subst.
        inversion Hb as [| | | | | | | |? ? ? ? ? ? Hch]; subst.
        inversion Hch as [|? a ? ? Ha| | | | | | |]; subst.
        apply Ascii.eqb_eq in Ha. subst a. intros _. reflexivity.
      * assert (cp = Re.no_captures) as ->.
        { eapply matches_to_no_groups; [exact H23|done]. }
        unfold Re.no_captures. by intros [? [=]].
    + intros g' [= <-]. by exists wp, s1.
  - (* a slash *)
    apply matches_to_no_groups in HB as Hc; [|done]. subst c1.
    split_and!; [|by intros [? [=]]|by intros ? [=]].
    intros _.
    inversion HB as [| |? ? ? ? sa ca ? ? Hcomma Hrest| | | | | |]; subst.
    inversion Hcomma as [|? a ? ? Ha| | | | | | |]; subst.
    inversion Hrest as [| |? ? ? ? sb cb ? ? Hopt Hslash| | | | | |]; subst.
    inversion Hslash as [|? d ? ? Hd| | | | | | |]; subst.
    apply Ascii.eqb_eq in Hd. subst d.
    destruct (matches_to_suffix _ _ _ _ _ Hopt) as [wo ->].
    simpl. rewrite has_char_app. simpl. by rewrite !orb_true_r.
Qed.

Lemma count_char_absent c s : has_char c s = false -> count_char c s = 0.
Proof.
  induction s as [|a s IH]; [done|]. simpl.
  intros [-> Hs]%orb_false_elim. by rewrite IH.
Qed.

Lemma parse_loop_no_bracket fuel allow_kwargs s g :
  has_char "[" s = false ->
  parse_loop fuel allow_kwargs false s = Some g ->
  Forall (fun p => p_optional p = false) (yields g).
Proof.
  revert allow_kwargs s g.
  induction fuel as [|fuel IH]; intros a s g Hs H; [done|].
  destruct s as [|ch s]; [by injection H as <-|].
  cbn [parse_loop] in H.
  destruct (Re.re_match clinic_re (String ch s)) as [m|] eqn:Hm;
    [|by injection H as <-].
  destruct (clinic_match_facts _ _ Hm) as ([w Hw] & _ & Hbracket & _).
  assert (has_char "[" (Re.rest m) = false) as Hrest.
  { rewrite Hw, has_char_app in Hs. by apply orb_false_elim in Hs as [_ ?]. }
  assert (str_truthy (Re.group m 1) = false) as H1.
  { destruct (Re.group m 1) as [[|? ?]|] eqn:Hg; try done.
    rewrite Hbracket in Hs; [done|by eexists]. }
  rewrite H1 in H. simpl in H.
  destruct (negb _); [by eapply IH|].
  apply fmap_Some in H as (g' & Hg' & ->).
  constructor; [done|]. by eapply IH.
Qed.

(** X23.  A parameter is optional only behind an opening bracket: parsing
    a clinic string in which no [[] occurs marks no parameter optional. *)
Theorem parse_clinic_no_bracket s g :
  has_char "[" s = false ->
  _parse_argument_clinic s = Some g ->
  Forall (fun p => p_optional p = false) (yields g).
Proof. apply parse_loop_no_bracket. Qed.

Lemma parse_clinic_no_bracket_witness :
  Forall (fun p => p_optional p = false)
    [mkParam "string" false false 0; mkParam "args" false true 1].
Proof.
  apply (parse_clinic_no_bracket "string, /, *args"
           (mkGen [mkParam "string" false false 0; mkParam "args" false true 1] None));
    vm_compute; reflexivity.
Defined.

Lemma parse_loop_no_marks fuel optional s g :
  has_char "/" s = false -> has_char "*" s = false ->
  parse_loop fuel false optional s = Some g ->
  Forall (fun p => p_allow_kwargs p = false /\ p_stars p = 0) (yields g).
Proof.
  revert optional s g.
  induction fuel as [|fuel IH]; intros o s g Hslash Hstar H; [done|].
  destruct s as [|ch s]; [by injection H as <-|].
  cbn [parse_loop] in H.
  destruct (Re.re_match clinic_re (String ch s)) as [m|] eqn:Hm;
    [|by injection H as <-].
  destruct (clinic_match_facts _ _ Hm) as ([w Hw] & Hnoword & _ & Hword).
  pose proof (clinic_match_groups _ _ Hm 2) as Hgroup.
  assert (has_char "/" (Re.rest m) = false /\ has_char "*" (Re.rest m) = false)
    as [Hslash' Hstar'].
  { rewrite Hw, has_char_app in Hslash, Hstar.
    apply orb_false_elim in Hslash as [_ ?]. by apply orb_false_elim in Hstar as [_ ?]. }
  destruct (Re.group m 2) as [word|] eqn:Hg.
  2:{ rewrite Hnoword in Hslash; done. }
  destruct (Hgroup word eq_refl) as (stars & name & -> & _ & Hname).
  assert (str_truthy (Some (stars +:+ name)) = true) as Htruthy.
  { destruct stars; [by destruct name|done]. }
  rewrite Htruthy in H. simpl in H.
  assert (count_char "*" (stars +:+ name) = 0) as Hcount.
  { apply count_char_absent. destruct (Hword _ eq_refl) as (w1 & w2 & Hs).
    rewrite Hs, !has_char_app in Hstar.
    apply orb_false_elim in Hstar as [_ Hstar].
    apply orb_false_elim in Hstar as [Hstar _]. by rewrite has_char_app. }
  rewrite Hcount in H. simpl in H.
  apply fmap_Some in H as (g' & Hg' & ->).
  constructor; [done|]. by eapply IH.
Qed.

(** X24.  A parameter accepts keywords only behind a slash or a starred
    parameter: parsing a clinic string in which neither [/] nor [*] occurs
    marks no parameter keyword-allowed, and none starred. *)
Theorem parse_clinic_no_marks s g :
  has_char "/" s = false -> has_char "*" s = false ->
  _parse_argument_clinic s = Some g ->
  Forall (fun p => p_allow_kwargs p = false /\ p_stars p = 0) (yields g).
Proof. apply parse_loop_no_marks. Qed.

Lemma parse_clinic_no_marks_witness :
  Forall (fun p => p_allow_kwargs p = false /\ p_stars p = 0)
    [mkParam "iterator" false false 0; mkParam "default" true false 0].
Proof.
  apply (parse_clinic_no_marks "iterator[, default]"
           (mkGen [mkParam "iterator" false false 0; mkParam "default" true false 0] None));
    vm_compute; reflexivity.
Defined.

(** ** Items in source order *)

Lemma positional_ok_item_of c : positional_ok c = true -> item_of c = (0, c).
Proof.
  destruct c as [t v|t cs]; [done|]. simpl.
  destruct cs as [|[t0 v0|] [|c1 [|]]]; try done.
  destruct (t =? "argument")%string; [|done]. simpl.
  by intros [->%negb_true_iff _]%andb_prop.
Qed.

Lemma unpack_children_items cs :
  children_ok cs = true ->
  Forall (fun c => is_star_token c = false) cs ->
  unpack_children cs
  = mkGen (item_of <$> filter (fun c => node_eq_str c "," = false) cs) None.
Proof.
  intros Hok Hns. induction Hns as [|c cs Hc _ IH]; [done|].
  cbn [unpack_children children_ok] in Hok |- *. rewrite Hc in Hok |- *.
  destruct (node_eq_str c ",") eqn:Hcomma.
  { rewrite filter_cons_False; [by apply IH|]. by rewrite Hcomma. }
  rewrite filter_cons_True by done. rewrite fmap_cons.
  apply andb_prop in Hok as [Hc_ok Hrest]. rewrite (IH Hrest).
  destruct (argument_ok_cases c Hc_ok) as [Hpos|(t & c0 & c1 & -> & Ht & Hc0)].
  - rewrite (positional_ok_not_starred c Hpos), (positional_ok_item_of c Hpos). done.
  - simpl. rewrite Ht. unfold index. simpl. rewrite Hc0. simpl.
    apply is_star_token_leaf in Hc0 as Hleaf. destruct Hleaf as (t0 & v & -> & Hv).
    simpl. by rewrite Hc0.
Qed.

(** X25.  For a well-shaped argument list without bare star tokens (every
    star is part of its [argument] node), [unpack_arglist] yields one item
    per child that is no comma, in source order: the target of a starred
    argument with the length of its star token, any other child as it is
    with 0. *)
Theorem unpack_arglist_items t cs :
  t = "arglist" \/ t = "testlist" ->
  children_ok cs = true ->
  Forall (fun c => is_star_token c = false) cs ->
  unpack_arglist (Some (BaseNode t cs))
  = mkGen (item_of <$> filter (fun c => node_eq_str c "," = false) cs) None.
Proof.
  intros Ht Hok Hns.
  assert (unpack_arglist (Some (BaseNode t cs)) = unpack_children cs) as ->.
  { by destruct Ht as [-> | ->]. }
  by apply unpack_children_items.
Qed.

Lemma unpack_arglist_items_witness :
  unpack_arglist
    (Some (BaseNode "arglist"
             [Demo.keyword "x" (Demo.number "1"); Demo.comma;
              Demo.star (Demo.name "seq"); Demo.comma; Demo.number "3"; Demo.comma;
              Demo.star_star (Demo.name "d")]))
  = mkGen [(0, Demo.keyword "x" (Demo.number "1")); (1, Demo.name "seq");
           (0, Demo.number "3"); (2, Demo.name "d")] None.
Proof.
  rewrite unpack_arglist_items; [reflexivity|by left|reflexivity|].
  repeat (constructor; [reflexivity|]). constructor.
Defined.
